(** * A shallow embedding of [tf_api.py]

    The program builds a computation graph out of four kinds of Python
    objects (operations, placeholders, constants, variables), registers each
    of them in a process-wide default graph, and evaluates a target node by
    a depth-first topological sort followed by one forward pass.

    Python objects have identity and are mutated in place ([node.output] is
    written on shared nodes), so nodes live in a store indexed by locations;
    the graph lists, the visited set and the feed dictionary hold locations. *)

From stdpp Require Import gmap list sets fin_maps relations.
From Stdlib Require Import ZArith.

Set Default Proof Using "Type".

(** ** Python exceptions and outcomes *)

(** The exception classes the program can raise.  [SystemError] stands for a
    reference to an object that is not in the store, which cannot happen in
    Python; the store-closedness predicate below rules it out. *)
Inductive exn :=
| NameError
| TypeError
| KeyError
| AttributeError
| ValueError
| NotImplementedError
| SystemError.

Global Instance exn_eq_dec : EqDecision exn.
Proof. solve_decision. Defined.

(** The result of running a piece of Python: a value, a raised exception,
    or a recursion that has not come back within the given fuel. *)
Inductive outcome (A : Type) :=
| Done (a : A)
| Raise (e : exn)
| OutOfFuel.
Arguments Done {A} a.
Arguments Raise {A} e.
Arguments OutOfFuel {A}.

(** The spec's names for the errors of the program. *)
Definition UninitializedContext : exn := NameError.
Definition ImmutableValueError : exn := ValueError.
Definition MissingFeedError : exn := KeyError.

(** A [for] loop over a Python list whose body threads a state and may raise. *)
Fixpoint for_in {A S : Type} (body : A → S → outcome S) (xs : list A) (s : S)
  : outcome S :=
  match xs with
  | [] => Done s
  | x :: rest =>
      match body x s with
      | Done s' => for_in body rest s'
      | Raise e => Raise e
      | OutOfFuel => OutOfFuel
      end
  end.

(** ** Values *)

(** A Python value held by a node: [None], or a value of the numeric
    backend. *)
Inductive pyobj (Value : Type) :=
| PyNone
| PyVal (v : Value).
Arguments PyNone {Value}.
Arguments PyVal {Value} v.

(** The result of a call into the numeric backend, which always comes back. *)
Inductive result (A : Type) :=
| Ok (a : A)
| Err (e : exn).
Arguments Ok {A} a.
Arguments Err {A} e.

(** The numeric backend (Python numbers, numpy arrays) is not part of the
    program: the four kernels use its [+], [*], [np.true_divide] and the
    method [dot] of its values, which is handed whatever object the second
    input holds. *)
Class Backend (Value : Type) := {
  num_add : Value → Value → result Value;
  num_mul : Value → Value → result Value;
  np_true_divide : Value → Value → result Value;
  num_dot : Value → pyobj Value → result Value
}.

(** Python integers.  [int] has no [dot] attribute; [np.true_divide] of two
    integers is a float, which this value domain does not hold, so it stays
    a parameter. *)
Definition python_int (true_divide : Z → Z → result Z) : Backend Z := {|
  num_add a b := Ok (a + b)%Z;
  num_mul a b := Ok (a * b)%Z;
  np_true_divide := true_divide;
  num_dot _ _ := Err AttributeError
|}.

(** The backend with no numeric value at all: only [None] flows through the
    graph. *)
Definition no_value {A : Type} (a : Empty_set) (b : A) : result Empty_set :=
  match a with end.

Definition no_numeric : Backend Empty_set := {|
  num_add := no_value;
  num_mul := no_value;
  np_true_divide := no_value;
  num_dot := no_value
|}.

(** ** Nodes and the store *)

Definition loc := nat.

(** The classes deriving from [Operation], and [Operation] itself. *)
Inductive op_class := Operation_base | add | multiply | divide | matmul.

Global Instance op_class_eq_dec : EqDecision op_class.
Proof. solve_decision. Defined.

Section Program.
Context {Value : Type} `{B : Backend Value}.

(** An object of one of the four node classes with its attributes.
    [input_nodes] is [None] when the constructor's default was used;
    [output] is created on a non-operation node by the first run that
    visits it.  [Variable] is a reserved word, hence [Variable_]. *)
Inductive Node :=
| Operation (cls : op_class) (input_nodes : option (list loc))
            (output : pyobj Value)
| Placeholder (value : pyobj Value) (output : option (pyobj Value))
| Constant (value : pyobj Value) (output : option (pyobj Value))
| Variable_ (value : pyobj Value) (output : option (pyobj Value)).

Record Graph := mkGraph {
  operations : list loc;
  placeholders : list loc;
  constants : list loc;
  variables : list loc
}.

(** The interpreter state: the node objects, the graph objects and the
    global [_default_graph] ([None] while the name is unbound). *)
Record world := mkWorld {
  heap : gmap loc Node;
  graphs : gmap loc Graph;
  default_graph : option loc
}.

(** ** The kernels *)

Definition of_result {A : Type} (r : result A) : outcome (pyobj A) :=
  match r with
  | Ok z => Done (PyVal z)
  | Err e => Raise e
  end.

(** A binary operator or function of the backend applied to two objects:
    [None] is no operand of it. *)
Definition lift2 (k : Value → Value → result Value) (a b : pyobj Value)
  : outcome (pyobj Value) :=
  match a, b with
  | PyVal x, PyVal y => of_result (k x y)
  | _, _ => Raise TypeError
  end.

(** [a.dot(b)]: [None] has no attribute [dot]. *)
Definition call_dot (a b : pyobj Value) : outcome (pyobj Value) :=
  match a with
  | PyVal x => of_result (num_dot x b)
  | PyNone => Raise AttributeError
  end.

(** [node.forward] applied to the unpacked list of input values: the base
    class takes no argument and returns [None]; the four kernels take
    exactly two. *)
Definition forward (cls : op_class) (inputs : list (pyobj Value))
  : outcome (pyobj Value) :=
  match cls, inputs with
  | Operation_base, [] => Done PyNone
  | add, [a; b] => lift2 num_add a b
  | multiply, [a; b] => lift2 num_mul a b
  | divide, [a; b] => lift2 np_true_divide a b
  | matmul, [a; b] => call_dot a b
  | _, _ => Raise TypeError
  end.

(** [node.backward] applied to the unpacked list of arguments: the method
    of the base class takes no argument and has an empty body; the four
    kernels take the upstream gradient and raise. *)
Definition backward (cls : op_class) (args : list (pyobj Value))
  : outcome (pyobj Value) :=
  match cls, args with
  | Operation_base, [] => Done PyNone
  | Operation_base, _ :: _ => Raise TypeError
  | _, [upstream_grad] => Raise NotImplementedError
  | _, _ => Raise TypeError
  end.

(** ** topology_sort *)

(** [recursive_helper] with its two captured variables [ordering] and
    [visited_nodes] passed as state.  The match on the class of the node is
    [isinstance(node, Operation)] followed by the iteration over
    [node.input_nodes], which raises when that attribute is [None].  The
    fuel bounds the depth of the recursion, which Python leaves to the
    interpreter's stack. *)
Fixpoint recursive_helper (fuel : nat) (h : gmap loc Node) (node : loc)
    (st : list loc * gset loc) {struct fuel}
  : outcome (list loc * gset loc) :=
  match fuel with
  | O => OutOfFuel
  | S fuel' =>
      let after_inputs :=
        match h !! node with
        | None => Raise SystemError
        | Some (Operation _ None _) => Raise TypeError
        | Some (Operation _ (Some ins) _) =>
            for_in (fun input_node st =>
                      if decide (input_node ∈ st.2) then Done st
                      else recursive_helper fuel' h input_node st)
                   ins st
        | Some _ => Done st
        end in
      match after_inputs with
      | Done (ordering, visited_nodes) =>
          Done (ordering ++ [node], {[node]} ∪ visited_nodes)
      | Raise e => Raise e
      | OutOfFuel => OutOfFuel
      end
  end.

(** The body of the loop over [node.input_nodes]. *)
Definition visit_input (fuel : nat) (h : gmap loc Node) (input_node : loc)
    (st : list loc * gset loc) : outcome (list loc * gset loc) :=
  if decide (input_node ∈ st.2) then Done st
  else recursive_helper fuel h input_node st.

Definition topology_sort (fuel : nat) (h : gmap loc Node) (operation : loc)
  : outcome (list loc) :=
  match recursive_helper fuel h operation ([], ∅) with
  | Done (ordering, _) => Done ordering
  | Raise e => Raise e
  | OutOfFuel => OutOfFuel
  end.

(** ** Attributes *)

(** [node.output = v] *)
Definition with_output (v : pyobj Value) (n : Node) : Node :=
  match n with
  | Operation cls ins _ => Operation cls ins v
  | Placeholder x _ => Placeholder x (Some v)
  | Constant x _ => Constant x (Some v)
  | Variable_ x _ => Variable_ x (Some v)
  end.

Definition set_output (l : loc) (v : pyobj Value) (h : gmap loc Node)
  : gmap loc Node :=
  alter (with_output v) l h.

(** [node.output] *)
Definition get_output (h : gmap loc Node) (l : loc) : outcome (pyobj Value) :=
  match h !! l with
  | None => Raise SystemError
  | Some (Operation _ _ o) => Done o
  | Some (Placeholder _ o) | Some (Constant _ o) | Some (Variable_ _ o) =>
      match o with
      | Some v => Done v
      | None => Raise AttributeError
      end
  end.

(** The comprehension [[node.output for node in node.input_nodes]]. *)
Fixpoint get_outputs (h : gmap loc Node) (ins : list loc)
  : outcome (list (pyobj Value)) :=
  match ins with
  | [] => Done []
  | i :: rest =>
      match get_output h i with
      | Done v =>
          match get_outputs h rest with
          | Done vs => Done (v :: vs)
          | Raise e => Raise e
          | OutOfFuel => OutOfFuel
          end
      | Raise e => Raise e
      | OutOfFuel => OutOfFuel
      end
  end.

(** The getter of the property [Constant.value]: [self.__value]. *)
Definition Constant_value (w : world) (self : loc) : outcome (pyobj Value) :=
  match heap w !! self with
  | Some (Constant v _) => Done v
  | Some _ => Raise AttributeError
  | None => Raise SystemError
  end.

(** The setter of the property [Constant.value]: it raises whatever is
    assigned, and touches nothing. *)
Definition Constant_value_setter (self : loc) (value : pyobj Value)
    (w : world) : outcome unit * world :=
  (Raise ValueError, w).

(** [v.value] for an object [v] of class [Variable]. *)
Definition Variable_value (w : world) (self : loc) : outcome (pyobj Value) :=
  match heap w !! self with
  | Some (Variable_ v _) => Done v
  | Some _ => Raise AttributeError
  | None => Raise SystemError
  end.

(** The assignment is a plain attribute write.  [SystemError] answers a
    [self] that is no variable of the store, which a caller holding a
    [Variable] object cannot pass. *)
Definition Variable_set_value (self : loc) (value : pyobj Value) (w : world)
  : outcome unit * world :=
  match heap w !! self with
  | Some (Variable_ _ o) =>
      (Done (), mkWorld (<[self := Variable_ value o]> (heap w))
                        (graphs w) (default_graph w))
  | _ => (Raise SystemError, w)
  end.

(** ** Session.run *)

(** The right-hand side of the assignment to [node.output] in the branch
    the class of [node] selects. *)
Definition node_value (feed_dict : gmap loc (pyobj Value)) (node : loc)
    (h : gmap loc Node) : outcome (pyobj Value) :=
  match h !! node with
  | None => Raise SystemError
  | Some (Placeholder _ _) =>
      match feed_dict !! node with
      | Some v => Done v
      | None => Raise KeyError
      end
  | Some (Variable_ v _) | Some (Constant v _) => Done v
  | Some (Operation cls ins _) =>
      match ins with
      | None => Raise TypeError
      | Some ins =>
          match get_outputs h ins with
          | Done inputs => forward cls inputs
          | Raise e => Raise e
          | OutOfFuel => OutOfFuel
          end
      end
  end.

(** One iteration of the loop of [run] on the store. *)
Definition run_node (feed_dict : gmap loc (pyobj Value)) (node : loc)
    (h : gmap loc Node) : outcome (gmap loc Node) :=
  match node_value feed_dict node h with
  | Done v => Done (set_output node v h)
  | Raise e => Raise e
  | OutOfFuel => OutOfFuel
  end.

(** The loop [for node in nodes_sorted]; the store it has reached is kept
    when an iteration raises. *)
Fixpoint run_loop (feed_dict : gmap loc (pyobj Value))
    (nodes_sorted : list loc) (h : gmap loc Node)
  : outcome unit * gmap loc Node :=
  match nodes_sorted with
  | [] => (Done (), h)
  | node :: rest =>
      match run_node feed_dict node h with
      | Done h' => run_loop feed_dict rest h'
      | Raise e => (Raise e, h)
      | OutOfFuel => (OutOfFuel, h)
      end
  end.

Definition with_heap (w : world) (h : gmap loc Node) : world :=
  mkWorld h (graphs w) (default_graph w).

Definition Session_run (fuel : nat) (operation : loc)
    (feed_dict : gmap loc (pyobj Value)) (w : world)
  : outcome (pyobj Value) * world :=
  match topology_sort fuel (heap w) operation with
  | Done nodes_sorted =>
      let '(r, h) := run_loop feed_dict nodes_sorted (heap w) in
      match r with
      | Done _ => (get_output h operation, with_heap w h)
      | Raise e => (Raise e, with_heap w h)
      | OutOfFuel => (OutOfFuel, with_heap w h)
      end
  | Raise e => (Raise e, w)
  | OutOfFuel => (OutOfFuel, w)
  end.

(** ** Constructors *)

Definition empty_graph : Graph := mkGraph [] [] [] [].

(** [Graph()] *)
Definition Graph_init (w : world) : loc * world :=
  let g := fresh (dom (graphs w)) in
  (g, mkWorld (heap w) (<[g := empty_graph]> (graphs w)) (default_graph w)).

(** [g.as_default()] *)
Definition as_default (g : loc) (w : world) : world :=
  mkWorld (heap w) (graphs w) (Some g).

(** A constructor sets the attributes of the new object [self] and then
    appends [self] to one list of [_default_graph].  While that name is
    unbound the append raises [NameError]; the half-built object is then
    unreachable, and the model leaves the world as it was. *)
Definition construct (n : Node) (append : loc → Graph → Graph) (w : world)
  : outcome loc * world :=
  let self := fresh (dom (heap w)) in
  match default_graph w with
  | None => (Raise NameError, w)
  | Some g =>
      match graphs w !! g with
      | None => (Raise SystemError, w)
      | Some gr =>
          (Done self,
           mkWorld (<[self := n]> (heap w))
                   (<[g := append self gr]> (graphs w))
                   (default_graph w))
      end
  end.

Definition append_operation (self : loc) (g : Graph) : Graph :=
  mkGraph (operations g ++ [self]) (placeholders g) (constants g)
          (variables g).
Definition append_placeholder (self : loc) (g : Graph) : Graph :=
  mkGraph (operations g) (placeholders g ++ [self]) (constants g)
          (variables g).
Definition append_constant (self : loc) (g : Graph) : Graph :=
  mkGraph (operations g) (placeholders g) (constants g ++ [self])
          (variables g).
Definition append_variable (self : loc) (g : Graph) : Graph :=
  mkGraph (operations g) (placeholders g) (constants g)
          (variables g ++ [self]).

(** [Operation.__init__], reached from the class [cls]. *)
Definition Operation_init (cls : op_class) (input_nodes : option (list loc))
  : world → outcome loc * world :=
  construct (Operation cls input_nodes PyNone) append_operation.

(** [BinaryOperation.__init__]: the classes [add], [multiply], [divide]
    and [matmul] inherit it. *)
Definition BinaryOperation_init (cls : op_class) (a b : loc)
  : world → outcome loc * world :=
  Operation_init cls (Some [a; b]).

Definition Placeholder_init : world → outcome loc * world :=
  construct (Placeholder PyNone None) append_placeholder.

Definition Constant_init (value : pyobj Value)
  : world → outcome loc * world :=
  construct (Constant value None) append_constant.

Definition Variable_init (initial_value : pyobj Value)
  : world → outcome loc * world :=
  construct (Variable_ initial_value None) append_variable.

(** The state of a fresh interpreter. *)
Definition initial_world : world := mkWorld ∅ ∅ None.

(** ** The dependency graph of a store *)

(** The input list of an operation; other nodes have no inputs. *)
Definition inputs_of (h : gmap loc Node) (x : loc) : list loc :=
  match h !! x with
  | Some (Operation _ (Some ins) _) => ins
  | _ => []
  end.

(** The edge (operation → input). *)
Definition edge (h : gmap loc Node) (x y : loc) : Prop := y ∈ inputs_of h x.

Definition reachable (h : gmap loc Node) (root x : loc) : Prop :=
  rtc (edge h) root x.

(** No node reachable from [root] lies on a cycle. *)
Definition acyclic_from (h : gmap loc Node) (root : loc) : Prop :=
  ∀ x, reachable h root x → ¬ tc (edge h) x x.

(** A node as the constructors with a list argument leave it: it is in
    the store and, when an operation, its [input_nodes] is a list. *)
Definition proper_node (h : gmap loc Node) (x : loc) : Prop :=
  match h !! x with
  | None => False
  | Some (Operation _ None _) => False
  | Some _ => True
  end.

Definition well_formed_from (h : gmap loc Node) (root : loc) : Prop :=
  ∀ x, reachable h root x → proper_node h x.

(** The nodes from which every chain of inputs ends. *)
Inductive grounded (h : gmap loc Node) : loc → Prop :=
| grounded_intro x :
    proper_node h x → (∀ y, edge h x y → grounded h y) → grounded h x.

(** Every operation of [ordering] has each of its inputs at a strictly
    earlier position. *)
Definition inputs_first (h : gmap loc Node) (ordering : list loc) : Prop :=
  ∀ i x y, ordering !! i = Some x → edge h x y →
    ∃ j, j < i ∧ ordering !! j = Some y.

(** What [Session.run] never writes: the class of a node, its inputs and
    its stored value. *)
Definition skeleton (n : Node) : Node :=
  match n with
  | Operation cls ins _ => Operation cls ins PyNone
  | Placeholder v _ => Placeholder v None
  | Constant v _ => Constant v None
  | Variable_ v _ => Variable_ v None
  end.

Definition same_structure (h1 h2 : gmap loc Node) : Prop :=
  ∀ l, skeleton <$> (h1 !! l) = skeleton <$> (h2 !! l).

(** ** The invariant of the traversal *)

(** The state of the traversal: [visited_nodes] is the set of the members
    of [ordering], which puts inputs first. *)
Definition sort_inv (h : gmap loc Node) (st : list loc * gset loc) : Prop :=
  st.2 = list_to_set st.1 ∧ inputs_first h st.1.

(** What a call adds to [ordering]: nodes satisfying [P], without
    repetition when the part of the store below [node] has no cycle. *)
Definition appends (h : gmap loc Node) (P : loc → Prop) (node : loc)
    (st st' : list loc * gset loc) : Prop :=
  ∃ new, st'.1 = st.1 ++ new ∧ (∀ y, y ∈ new → P y) ∧
         (acyclic_from h node → NoDup st.1 → NoDup st'.1).

Definition helper_post (h : gmap loc Node) (node : loc)
    (st st' : list loc * gset loc) : Prop :=
  sort_inv h st' ∧ node ∈ st'.1 ∧ last st'.1 = Some node ∧
  appends h (reachable h node) node st st'.

(** ** Programs over the interpreter state *)

Definition M (A : Type) : Type := world → outcome A * world.

Definition ret {A : Type} (a : A) : M A := λ w, (Done a, w).

Definition bind {A A' : Type} (m : M A) (k : A → M A') : M A' :=
  λ w, match m w with
       | (Done a, w') => k a w'
       | (Raise e, w') => (Raise e, w')
       | (OutOfFuel, w') => (OutOfFuel, w')
       end.

(** [Graph()] followed by [as_default()] on the new graph. *)
Definition Graph_as_default : M loc :=
  λ w, let '(g, w') := Graph_init w in (Done g, as_default g w').

(** ** Registration, observed over a sequence of calls *)

Inductive variant := VOperation | VPlaceholder | VConstant | VVariable.

Global Instance variant_eq_dec : EqDecision variant.
Proof. solve_decision. Defined.

Definition variant_of (n : Node) : variant :=
  match n with
  | Operation _ _ _ => VOperation
  | Placeholder _ _ => VPlaceholder
  | Constant _ _ => VConstant
  | Variable_ _ _ => VVariable
  end.

(** The collection of a graph that holds the nodes of a variant. *)
Definition collection (v : variant) (g : Graph) : list loc :=
  match v with
  | VOperation => operations g
  | VPlaceholder => placeholders g
  | VConstant => constants g
  | VVariable => variables g
  end.

(** A successful construction: the new node, its variant and the graph that
    was current. *)
Record event := mkEvent {
  ev_node : loc;
  ev_variant : variant;
  ev_graph : loc
}.

(** The calls a user program makes. *)
Inductive call :=
| CallGraph
| CallAsDefault (g : loc)
| CallOperation (cls : op_class) (input_nodes : option (list loc))
| CallPlaceholder
| CallConstant (value : pyobj Value)
| CallVariable (initial_value : pyobj Value)
| CallSetVariable (self : loc) (value : pyobj Value)
| CallSetConstant (self : loc) (value : pyobj Value)
| CallRun (fuel : nat) (operation : loc) (feed_dict : gmap loc (pyobj Value)).

Definition constructed (v : variant) (current : option loc)
    (r : outcome loc * world) : world * list event :=
  match r.1, current with
  | Done self, Some g => (r.2, [mkEvent self v g])
  | _, _ => (r.2, [])
  end.

Definition exec_call (c : call) (w : world) : world * list event :=
  match c with
  | CallGraph => ((Graph_init w).2, [])
  | CallAsDefault g => (as_default g w, [])
  | CallOperation cls ins =>
      constructed VOperation (default_graph w) (Operation_init cls ins w)
  | CallPlaceholder =>
      constructed VPlaceholder (default_graph w) (Placeholder_init w)
  | CallConstant v =>
      constructed VConstant (default_graph w) (Constant_init v w)
  | CallVariable v =>
      constructed VVariable (default_graph w) (Variable_init v w)
  | CallSetVariable self v => ((Variable_set_value self v w).2, [])
  | CallSetConstant self v => ((Constant_value_setter self v w).2, [])
  | CallRun fuel operation feed_dict =>
      ((Session_run fuel operation feed_dict w).2, [])
  end.

(** A sequence of calls, with the constructions it made in order. *)
Fixpoint exec_calls (cs : list call) (w : world) : world * list event :=
  match cs with
  | [] => (w, [])
  | c :: cs =>
      let '(w1, log1) := exec_call c w in
      let '(w2, log2) := exec_calls cs w1 in
      (w2, log1 ++ log2)
  end.

(** The nodes of variant [v] constructed under graph [g], in construction
    order. *)
Definition constructed_under (g : loc) (v : variant) (log : list event)
  : list loc :=
  ev_node <$> filter (λ e, ev_graph e = g ∧ ev_variant e = v) log.

(** What ties a world to the constructions that made it. *)
Record registry_inv (w : world) (log : list event) : Prop := {
  reg_NoDup : NoDup (ev_node <$> log);
  reg_variant : ∀ e, e ∈ log →
    variant_of <$> heap w !! ev_node e = Some (ev_variant e);
  reg_graph : ∀ e, e ∈ log → ev_graph e ∈ dom (graphs w);
  reg_complete : ∀ l, is_Some (heap w !! l) → l ∈ ev_node <$> log;
  reg_collection : ∀ g gr v,
    graphs w !! g = Some gr → collection v gr = constructed_under g v log
}.

(** The node [self] is a constant holding [value]. *)
Definition holds_constant (w : world) (self : loc) (value : pyobj Value)
  : Prop :=
  ∃ o, heap w !! self = Some (Constant value o).

(** ** Predicates on runs *)

(** The forward function of the operation [x] raises [e] when applied, as
    the loop of [run] applies it, to the outputs that the store [h] caches
    on the inputs of [x]. *)
Definition forward_raises (h : gmap loc Node) (x : loc) (e : exn) : Prop :=
  ∃ cls ins o inputs,
    h !! x = Some (Operation cls (Some ins) o) ∧
    get_outputs h ins = Done inputs ∧
    forward cls inputs = Raise e.

Definition has_output (h : gmap loc Node) (l : loc) : Prop :=
  ∃ v, get_output h l = Done v.

(** A placeholder of the store with no entry in the feed dictionary. *)
Definition unfed (h : gmap loc Node) (feed_dict : gmap loc (pyobj Value))
    (p : loc) : Prop :=
  (∃ v o, h !! p = Some (Placeholder v o)) ∧ feed_dict !! p = None.

(** The node [l] is a constant or a variable storing [v]. *)
Definition stores (h : gmap loc Node) (l : loc) (v : pyobj Value) : Prop :=
  (∃ o, h !! l = Some (Constant v o)) ∨ (∃ o, h !! l = Some (Variable_ v o)).

(** The output cached on [x] is what the branch of [run] for the class of
    [x] assigns, computed from the outputs cached on the inputs of [x]. *)
Definition output_consistent (feed_dict : gmap loc (pyobj Value))
    (h : gmap loc Node) (x : loc) : Prop :=
  match h !! x with
  | Some (Operation cls (Some ins) o) =>
      ∃ inputs, get_outputs h ins = Done inputs ∧ forward cls inputs = Done o
  | Some (Placeholder _ (Some o)) => feed_dict !! x = Some o
  | Some (Constant v (Some o)) | Some (Variable_ v (Some o)) => o = v
  | _ => False
  end.

(** Every node reachable from [root] is in the store. *)
Definition closed_from (h : gmap loc Node) (root : loc) : Prop :=
  ∀ x, reachable h root x → is_Some (h !! x).

(** The nodes below which every chain of inputs ends, inside the store. *)
Inductive descends (h : gmap loc Node) : loc → Prop :=
| descends_intro x :
    is_Some (h !! x) → (∀ y, edge h x y → descends h y) → descends h x.

(** A call that comes back: with an ordering, or with the [TypeError] of
    the iteration over [None]. *)
Definition comes_back (r : outcome (list loc * gset loc)) : Prop :=
  (∃ st', r = Done st') ∨ r = Raise TypeError.


(** The input list of every operation holds nodes constructed before it:
    what the constructors produce, since an input must exist to be passed. *)
Definition inputs_older (h : gmap loc Node) : Prop :=
  map_Forall (λ x n,
    match n with
    | Operation _ None _ => False
    | Operation _ (Some ins) _ => Forall (λ y, y < x ∧ is_Some (h !! y)) ins
    | _ => True
    end) h.

(** The input list of a node, as [inputs_of] reads it from the store. *)
Definition node_inputs (n : Node) : list loc :=
  match n with
  | Operation _ (Some ins) _ => ins
  | _ => []
  end.


(** The call [c], made in the world [w], constructs no operation with the
    default [input_nodes] and hands an operation only nodes that exist. *)
Definition call_scoped (w : world) (c : call) : Prop :=
  match c with
  | CallOperation _ (Some ins) => Forall (λ y, is_Some (heap w !! y)) ins
  | CallOperation _ None => False
  | _ => True
  end.

(** Every call of the sequence is scoped in the world it is made in. *)
Fixpoint scoped (cs : list call) (w : world) : Prop :=
  match cs with
  | [] => True
  | c :: cs => call_scoped w c ∧ scoped cs (exec_call c w).1
  end.

(** A store all of whose nodes are proper, whose input lists hold nodes of
    the store, and which has no cycle. *)
Definition sound_store (h : gmap loc Node) : Prop :=
  (∀ x, is_Some (h !! x) → proper_node h x) ∧
  (∀ x y, edge h x y → is_Some (h !! y)) ∧
  (∀ x, ¬ tc (edge h) x x).

(** As [inputs_older], but an operation may have been constructed with the
    default [input_nodes]. *)
Definition inputs_before (h : gmap loc Node) : Prop :=
  map_Forall (λ x n,
    match n with
    | Operation _ (Some ins) _ => Forall (λ y, y < x ∧ is_Some (h !! y)) ins
    | _ => True
    end) h.

End Program.

Notation "'do' x <- m ; k" := (bind m (λ x, k))
  (at level 10, x name, m at level 100, k at level 200,
   format "'[v' 'do'  x  <-  m ; '/' k ']'").

(** * The scenarios of the specification *)

(** [a = Constant(3); b = Variable(4); op = multiply(a, b)], a run, the
    assignment [b.value = 10], and a second run; the program returns what
    the two runs returned. *)
Definition multiply_scenario (true_divide : Z → Z → result Z) (fuel : nat)
  : M (Value := Z) (pyobj Z * pyobj Z) :=
  let _ : Backend Z := python_int true_divide in
  do _ <- Graph_as_default;
  do a <- Constant_init (PyVal 3%Z);
  do b <- Variable_init (PyVal 4%Z);
  do op <- BinaryOperation_init multiply a b;
  do r1 <- Session_run fuel op ∅;
  do _ <- Variable_set_value b (PyVal 10%Z);
  do r2 <- Session_run fuel op ∅;
  ret (r1, r2).

(** [p = Placeholder(); c = Constant(2); op = add(p, c)] and a run with the
    given feed for [p]. *)
Definition placeholder_scenario (true_divide : Z → Z → result Z) (fuel : nat)
    (fed : option (pyobj Z)) : M (Value := Z) (pyobj Z) :=
  let _ : Backend Z := python_int true_divide in
  do _ <- Graph_as_default;
  do p <- Placeholder_init;
  do c <- Constant_init (PyVal 2%Z);
  do op <- BinaryOperation_init add p c;
  Session_run fuel op (match fed with Some v => {[p := v]} | None => ∅ end).

(** [v = Variable(); bad = add(v, v); p = Placeholder(); op = add(bad, p)]:
    the world after the four constructions, in which [v] is node 0, [bad]
    node 1, [p] node 2 and [op] node 3. *)
Definition unfed_program : M (Value := Empty_set) loc :=
  do _ <- Graph_as_default;
  do v <- Variable_init PyNone;
  do bad <- BinaryOperation_init add v v;
  do p <- Placeholder_init;
  BinaryOperation_init add bad p.

Definition unfed_world : world (Value := Empty_set) :=
  (unfed_program initial_world).2.

(** [a = Constant(None); b = add(a, a); c = multiply(a, b);
    root = add(b, c)]: a diamond, nodes 0 to 3 in this order. *)
Definition diamond_program : M (Value := Empty_set) loc :=
  do _ <- Graph_as_default;
  do a <- Constant_init PyNone;
  do b <- BinaryOperation_init add a a;
  do c <- BinaryOperation_init multiply a b;
  BinaryOperation_init add b c.

Definition diamond_world : world (Value := Empty_set) :=
  (diamond_program initial_world).2.

(** [p = Placeholder(); c = Constant(None); op = add(p, c)]: nodes 0, 1
    and 2. *)
Definition missing_feed_program : M (Value := Empty_set) loc :=
  do _ <- Graph_as_default;
  do p <- Placeholder_init;
  do c <- Constant_init PyNone;
  BinaryOperation_init add p c.

Definition missing_feed_world : world (Value := Empty_set) :=
  (missing_feed_program initial_world).2.

(** [op = Operation([])] on the base class, and a run of it. *)
Definition base_operation_program (fuel : nat)
  : M (Value := Empty_set) (pyobj Empty_set) :=
  let _ : Backend Empty_set := no_numeric in
  do _ <- Graph_as_default;
  do op <- Operation_init Operation_base (Some []);
  Session_run fuel op ∅.

(** The world in which a graph is current, before [Constant(5)]. *)
Definition current_graph_world : world (Value := Z) :=
  (Graph_as_default initial_world).2.

(** Python integers with [np.true_divide] left out: the integer examples
    below never divide, and a call of it would be answered with an error. *)
Definition python_int_no_divide : Backend Z :=
  python_int (λ _ _, Err NotImplementedError).

(** The world after [a = Constant(3); b = Variable(4);
    op = multiply(a, b)]: nodes 0, 1 and 2. *)
Definition multiply_program : M (Value := Z) loc :=
  do _ <- Graph_as_default;
  do a <- Constant_init (PyVal 3%Z);
  do b <- Variable_init (PyVal 4%Z);
  BinaryOperation_init multiply a b.

Definition multiply_world : world (Value := Z) :=
  (multiply_program initial_world).2.

(** [x = Constant(None); bad = Operation()]: the operation is constructed
    with the default [input_nodes]; then [op = add(x, bad)].  Nodes 0, 1
    and 2. *)
Definition default_inputs_program : M (Value := Empty_set) loc :=
  do _ <- Graph_as_default;
  do x <- Constant_init PyNone;
  do bad <- Operation_init Operation_base None;
  BinaryOperation_init add x bad.

Definition default_inputs_world : world (Value := Empty_set) :=
  (default_inputs_program initial_world).2.

(** Two operations that list each other as input, as an assignment to
    [input_nodes] after construction can produce. *)
Definition cyclic_heap : gmap loc (Node (Value := Empty_set)) :=
  {[ 0 := Operation add (Some [1; 1]) PyNone;
     1 := Operation add (Some [0; 0]) PyNone ]}.




(** * Facts about the dependency graph *)

Section GraphFacts.
Context {Value : Type}.
Implicit Types (h : gmap loc (@Node Value)) (x y root : loc).
Implicit Types (ordering : list loc).

Lemma inputs_of_operation h x cls ins o :
  h !! x = Some (Operation cls (Some ins) o) → inputs_of h x = ins.
Proof. unfold inputs_of. by intros ->. Qed.

Lemma edge_operation h x y :
  edge h x y →
  ∃ cls ins o, h !! x = Some (Operation cls (Some ins) o) ∧ y ∈ ins.
Proof.
  unfold edge, inputs_of. intros Hy.
  destruct (h !! x) as [[cls [ins|] o| | |]|] eqn:Hx;
    try by apply elem_of_nil in Hy.
  eauto.
Qed.

Lemma acyclic_from_edge h x y :
  acyclic_from h x → edge h x y → acyclic_from h y.
Proof.
  intros Hac Hxy z Hz. apply Hac. by eapply rtc_l.
Qed.

Lemma well_formed_from_edge h x y :
  well_formed_from h x → edge h x y → well_formed_from h y.
Proof.
  intros Hwf Hxy z Hz. apply Hwf. by eapply rtc_l.
Qed.

Lemma proper_node_in_dom h x : proper_node h x → x ∈ dom h.
Proof.
  unfold proper_node. intros Hx. apply elem_of_dom.
  destruct (h !! x); [eauto | done].
Qed.

(** ** Orderings that put inputs first *)

Lemma inputs_first_nil h : inputs_first h [].
Proof. intros i x y Hi. by rewrite lookup_nil in Hi. Qed.

Lemma inputs_first_snoc h ordering x :
  inputs_first h ordering →
  (∀ y, edge h x y → y ∈ ordering) →
  inputs_first h (ordering ++ [x]).
Proof.
  intros Hord Hx i z y Hi Hzy.
  destruct (decide (i < length ordering)) as [Hlt|Hge].
  - rewrite lookup_app_l in Hi by done.
    destruct (Hord i z y Hi Hzy) as (j & Hj & Hjy).
    exists j. split; [done|]. rewrite lookup_app_l; [done | lia].
  - rewrite lookup_app_r in Hi by lia.
    apply list_lookup_singleton_Some in Hi as [Hi ->].
    apply Hx, list_elem_of_lookup in Hzy as [j Hj].
    exists j. split.
    + apply lookup_lt_Some in Hj. lia.
    + by apply lookup_app_l_Some.
Qed.

Lemma inputs_first_tc h ordering i x y :
  inputs_first h ordering → ordering !! i = Some x → tc (edge h) x y →
  ∃ j, j < i ∧ ordering !! j = Some y.
Proof.
  intros Hord Hi Hxy. revert i Hi.
  induction Hxy as [x y Hxy | x z y Hxz Hzy IH]; intros i Hi.
  - by eapply Hord.
  - destruct (Hord i x z Hi Hxz) as (j & Hj & Hjz).
    destruct (IH j Hjz) as (k & Hk & Hky).
    exists k. split; [lia | done].
Qed.

(** An ordering with inputs first holds everything reachable from its
    members, and none of its members lies on a cycle. *)
Lemma inputs_first_closed h ordering x y :
  inputs_first h ordering → x ∈ ordering → reachable h x y → y ∈ ordering.
Proof.
  intros Hord Hx Hxy. induction Hxy as [x | x z y Hxz Hzy IH]; [done|].
  apply IH. apply list_elem_of_lookup in Hx as [i Hi].
  destruct (Hord i x z Hi Hxz) as (j & _ & Hj).
  apply list_elem_of_lookup. eauto.
Qed.

Lemma inputs_first_no_cycle h ordering x :
  inputs_first h ordering → x ∈ ordering → ¬ tc (edge h) x x.
Proof.
  intros Hord Hx Hcyc. apply list_elem_of_lookup in Hx as [i Hi].
  revert Hi. induction (lt_wf i) as [i _ IH]. intros Hi.
  destruct (inputs_first_tc h ordering i x x Hord Hi Hcyc) as (j & Hj & Hjx).
  by apply (IH j).
Qed.

Lemma inputs_first_acyclic h ordering root :
  inputs_first h ordering → root ∈ ordering → acyclic_from h root.
Proof.
  intros Hord Hroot x Hx. eapply inputs_first_no_cycle; [done|].
  by eapply inputs_first_closed.
Qed.

(** ** Stores whose inputs are older than the operations using them *)

Global Instance inputs_older_dec h : Decision (inputs_older h).
Proof.
  apply map_Forall_dec. intros x [cls [ins|] o|v o|v o|v o]; apply _.
Defined.

Lemma inputs_older_edge h x y :
  inputs_older h → edge h x y → y < x ∧ is_Some (h !! y).
Proof.
  intros Hold (cls & ins & o & Hx & Hy)%edge_operation.
  specialize (Hold x _ Hx). simpl in Hold.
  by apply (proj1 (Forall_forall _ _) Hold y).
Qed.

Lemma inputs_older_tc h x y : inputs_older h → tc (edge h) x y → y < x.
Proof.
  intros Hold. induction 1 as [x y Hxy | x z y Hxz _ IH].
  - by apply (inputs_older_edge h).
  - apply (inputs_older_edge h) in Hxz as [Hlt _]; [lia | done].
Qed.

Lemma inputs_older_acyclic h root : inputs_older h → acyclic_from h root.
Proof.
  intros Hold x _ Hcyc. apply (inputs_older_tc h) in Hcyc; [lia | done].
Qed.

Lemma inputs_older_well_formed h root :
  inputs_older h → is_Some (h !! root) → well_formed_from h root.
Proof.
  intros Hold Hroot x Hx.
  assert (is_Some (h !! x)) as [n Hn].
  { induction Hx as [x | x y z Hxy _ IH]; [done|].
    apply IH. by apply (inputs_older_edge h) in Hxy as [_ ?]. }
  unfold proper_node. rewrite Hn. specialize (Hold x n Hn). simpl in Hold.
  by destruct n as [cls [ins|] o|v o|v o|v o].
Qed.

End GraphFacts.

(** * Acyclic stores are grounded *)

Section Grounded.
Context {Value : Type}.
Implicit Types (h : gmap loc (@Node Value)) (x y root : loc).

Lemma path_length_bound h (path : list loc) :
  NoDup path → (∀ p, p ∈ path → p ∈ dom h) → length path ≤ size (dom h).
Proof.
  intros Hnd Hin. rewrite <- (size_list_to_set (C := gset loc) path Hnd).
  apply subseteq_size. intros p Hp. apply Hin. by apply elem_of_list_to_set in Hp.
Qed.

(** The chain of nodes descended through so far never repeats, so it is
    no longer than the store. *)
Lemma grounded_along_path h root (k : nat) :
  well_formed_from h root → acyclic_from h root →
  ∀ path x,
    NoDup path →
    (∀ p, p ∈ path → p ∈ dom h ∧ tc (edge h) p x) →
    reachable h root x →
    size (dom h) ≤ k + length path →
    grounded h x.
Proof.
  intros Hwf Hac. induction k as [|k IH]; intros path x Hnd Hpath Hx Hsize.
  - exfalso.
    assert (x ∉ path) as Hfresh.
    { intros Hin. apply (Hac x Hx). by apply Hpath. }
    assert (length (x :: path) ≤ size (dom h)) as Hlen.
    { apply path_length_bound.
      - by constructor.
      - intros p [->|Hp]%elem_of_cons.
        + by apply proper_node_in_dom, Hwf.
        + by apply Hpath. }
    simpl in Hlen. lia.
  - constructor; [by apply Hwf|].
    intros y Hxy.
    assert (x ∉ path) as Hfresh.
    { intros Hin. apply (Hac x Hx). by apply Hpath. }
    apply (IH (x :: path)).
    + by constructor.
    + intros p [->|Hp]%elem_of_cons.
      * split; [by apply proper_node_in_dom, Hwf | by apply tc_once].
      * destruct (Hpath p Hp) as [Hdom Hpx]. split; [done|].
        eapply tc_r; eauto.
    + eapply rtc_r; eauto.
    + simpl. lia.
Qed.

Lemma acyclic_grounded h root :
  well_formed_from h root → acyclic_from h root → grounded h root.
Proof.
  intros Hwf Hac.
  apply (grounded_along_path h root (size (dom h)) Hwf Hac []).
  - constructor.
  - intros p Hp. by apply elem_of_nil in Hp.
  - apply rtc_refl.
  - lia.
Qed.

Lemma grounded_well_formed h root : grounded h root → well_formed_from h root.
Proof.
  intros Hg x Hx. induction Hx as [x | x y z Hxy Hyz IH].
  - by destruct Hg.
  - destruct Hg as [x Hp Hin]. by apply IH, Hin.
Qed.

End Grounded.

(** * The depth-first traversal *)

Section TopologySort.
Context {Value : Type}.
Implicit Types (h : gmap loc (@Node Value)) (x y node root : loc).
Implicit Types (st : list loc * gset loc).

Lemma recursive_helper_unfold fuel h node st :
  recursive_helper (S fuel) h node st =
  match
    match h !! node with
    | None => Raise SystemError
    | Some (Operation _ None _) => Raise TypeError
    | Some (Operation _ (Some ins) _) => for_in (visit_input fuel h) ins st
    | Some _ => Done st
    end
  with
  | Done (ordering, visited_nodes) =>
      Done (ordering ++ [node], {[node]} ∪ visited_nodes)
  | Raise e => Raise e
  | OutOfFuel => OutOfFuel
  end.
Proof. reflexivity. Qed.

Lemma sort_inv_visited h st x : sort_inv h st → x ∈ st.2 ↔ x ∈ st.1.
Proof. intros [-> _]. by rewrite elem_of_list_to_set. Qed.

Lemma visit_inputs_post fuel h node ins st st' :
  (∀ x t t', sort_inv h t → x ∉ t.1 →
     recursive_helper fuel h x t = Done t' → helper_post h x t t') →
  (∀ i, i ∈ ins → edge h node i) →
  sort_inv h st →
  for_in (visit_input fuel h) ins st = Done st' →
  sort_inv h st' ∧ (∀ i, i ∈ ins → i ∈ st'.1) ∧
  appends h (tc (edge h) node) node st st'.
Proof.
  intros IH. revert st.
  induction ins as [|i ins IHins]; intros st Hedge Hinv Hrun; simpl in Hrun.
  - simplify_eq. split; [done|]. split; [by intros i ?%elem_of_nil|].
    exists []. rewrite app_nil_r. split; [done|].
    split; [by intros y ?%elem_of_nil | done].
  - destruct (visit_input fuel h i st) as [t| |] eqn:Hi; try done.
    assert (sort_inv h t ∧ i ∈ t.1 ∧ appends h (tc (edge h) node) node st t)
      as (Hinvt & Hit & new1 & Hnew1 & Hreach1 & Hnd1).
    { unfold visit_input in Hi. destruct (decide (i ∈ st.2)) as [Hvis|Hvis].
      - simplify_eq. split; [done|]. split; [by apply (sort_inv_visited h)|].
        exists []. rewrite app_nil_r. split; [done|].
        split; [by intros y ?%elem_of_nil | done].
      - assert (i ∉ st.1) as Hnew by by rewrite <- (sort_inv_visited h).
        destruct (IH i st t Hinv Hnew Hi)
          as (Hinvt & Hit & _ & new & Hnew' & Hreach & Hnd).
        split; [done|]. split; [done|].
        exists new. split; [done|]. split.
        + intros y Hy. eapply tc_rtc_r; [|by apply Hreach].
          apply tc_once, Hedge. by left.
        + intros Hac. apply Hnd. eapply acyclic_from_edge; [done|].
          apply Hedge. by left. }
    destruct (IHins t) as (Hinv' & Hins & new2 & Hnew2 & Hreach2 & Hnd2);
      [|done..|].
    { intros j Hj. apply Hedge. by right. }
    split; [done|]. split.
    + intros j [->|Hj]%elem_of_cons; [|by apply Hins].
      rewrite Hnew2. apply elem_of_app. by left.
    + exists (new1 ++ new2). split; [|split].
      * rewrite Hnew2, Hnew1. by rewrite app_assoc.
      * intros y [Hy|Hy]%elem_of_app; auto.
      * auto.
Qed.

Lemma recursive_helper_post fuel h :
  ∀ node st st', sort_inv h st → node ∉ st.1 →
    recursive_helper fuel h node st = Done st' → helper_post h node st st'.
Proof.
  induction fuel as [|fuel IH]; intros node st st' Hinv Hfresh Hrun;
    [done|].
  rewrite recursive_helper_unfold in Hrun.
  set (after := match h !! node with
                | None => Raise SystemError
                | Some (Operation _ None _) => Raise TypeError
                | Some (Operation _ (Some ins) _) =>
                    for_in (visit_input fuel h) ins st
                | Some _ => Done st
                end) in Hrun.
  assert (∀ t, after = Done t →
            sort_inv h t ∧ (∀ y, edge h node y → y ∈ t.1) ∧
            appends h (tc (edge h) node) node st t) as Hafter.
  { intros t Ht. unfold after in Ht.
    assert (sort_inv h st ∧ (inputs_of h node = [] → True) ∧
            appends h (tc (edge h) node) node st st) as Hsame.
    { split; [done|]. split; [done|]. exists []. rewrite app_nil_r.
      split; [done|]. split; [by intros y ?%elem_of_nil | done]. }
    destruct (h !! node) as [[cls [ins|] o|v o|v o|v o]|] eqn:Hnode;
      simplify_eq.
    - assert (inputs_of h node = ins) as Hins
        by by eapply inputs_of_operation.
      destruct (visit_inputs_post fuel h node ins st t IH)
        as (Hinvt & Hall & Happ); try done.
      { intros i Hi. unfold edge. by rewrite Hins. }
      split; [done|]. split; [|done].
      intros y Hy. apply Hall. unfold edge in Hy. by rewrite Hins in Hy.
    - destruct Hsame as (? & _ & ?). split; [done|]. split; [|done].
      intros y Hy. unfold edge, inputs_of in Hy. rewrite Hnode in Hy.
      by apply elem_of_nil in Hy.
    - destruct Hsame as (? & _ & ?). split; [done|]. split; [|done].
      intros y Hy. unfold edge, inputs_of in Hy. rewrite Hnode in Hy.
      by apply elem_of_nil in Hy.
    - destruct Hsame as (? & _ & ?). split; [done|]. split; [|done].
      intros y Hy. unfold edge, inputs_of in Hy. rewrite Hnode in Hy.
      by apply elem_of_nil in Hy. }
  destruct after as [[ordering visited_nodes]| |]; try done.
  injection Hrun as <-.
  destruct (Hafter _ eq_refl) as ([Hvis Hord] & Hinputs & new & Hnew & Hreach & Hnd).
  simpl in *. split; [|split; [|split]].
  - split; simpl.
    + rewrite Hvis, list_to_set_app_L. simpl.
      rewrite (right_id_L ∅ (∪)). apply (comm_L (∪)).
    + by apply inputs_first_snoc.
  - simpl. apply elem_of_app. right. by left.
  - simpl. by rewrite last_snoc.
  - exists (new ++ [node]). simpl. split; [|split].
    + by rewrite Hnew, app_assoc.
    + intros y [Hy|Hy%list_elem_of_singleton]%elem_of_app.
      * by apply tc_rtc, Hreach.
      * subst. apply rtc_refl.
    + intros Hac Hst. apply NoDup_app. split; [by apply Hnd|].
      split; [|apply NoDup_singleton].
      intros y Hy ->%list_elem_of_singleton.
      rewrite Hnew in Hy. apply elem_of_app in Hy as [Hy|Hy]; [done|].
      apply (Hac node); [apply rtc_refl | by apply Hreach].
Qed.

(** ** Termination *)

Lemma common_fuel (P : loc → nat → Prop) (ins : list loc) :
  (∀ i, i ∈ ins → ∃ n, ∀ fuel, n ≤ fuel → P i fuel) →
  ∃ n, ∀ i, i ∈ ins → ∀ fuel, n ≤ fuel → P i fuel.
Proof.
  induction ins as [|i ins IH]; intros Hall.
  - exists 0. by intros i ?%elem_of_nil.
  - destruct (Hall i) as [n Hn]; [by left|].
    destruct IH as [m Hm]; [intros j Hj; apply Hall; by right|].
    exists (n `max` m). intros j [->|Hj]%elem_of_cons fuel Hfuel.
    + apply Hn. lia.
    + apply Hm; [done | lia].
Qed.

Lemma visit_inputs_terminate fuel h ins st :
  (∀ i, i ∈ ins → ∀ t, ∃ t', recursive_helper fuel h i t = Done t') →
  ∃ st', for_in (visit_input fuel h) ins st = Done st'.
Proof.
  revert st. induction ins as [|i ins IH]; intros st Hall; simpl; [eauto|].
  assert (∃ t, visit_input fuel h i st = Done t) as [t ->].
  { unfold visit_input. destruct (decide (i ∈ st.2)); [eauto|].
    apply Hall. by left. }
  apply IH. intros j Hj. apply Hall. by right.
Qed.

(** On a grounded node the traversal comes back, from any state, once the
    fuel exceeds some bound. *)
Lemma recursive_helper_terminates h node :
  grounded h node →
  ∃ n, ∀ fuel, n ≤ fuel → ∀ st, ∃ st', recursive_helper fuel h node st = Done st'.
Proof.
  induction 1 as [x Hproper _ IH].
  destruct (common_fuel
    (λ i fuel, ∀ st, ∃ st', recursive_helper fuel h i st = Done st')
    (inputs_of h x)) as [n Hn].
  { intros i Hi. by apply IH. }
  exists (S n). intros [|fuel] Hfuel st; [lia|].
  rewrite recursive_helper_unfold. unfold proper_node in Hproper.
  unfold inputs_of in Hn.
  destruct (h !! x) as [[cls [ins|] o|v o|v o|v o]|]; try done;
    try (destruct st; eauto).
  destruct (visit_inputs_terminate fuel h ins (l, g)) as [[ord vis] ->];
    [|eauto].
  intros i Hi t. apply Hn; [done | lia].
Qed.

(** More fuel does not change an answer. *)
Lemma visit_inputs_fuel_mono fuel fuel' h ins st r :
  (∀ i t r', recursive_helper fuel h i t = r' → r' ≠ OutOfFuel →
             recursive_helper fuel' h i t = r') →
  for_in (visit_input fuel h) ins st = r → r ≠ OutOfFuel →
  for_in (visit_input fuel' h) ins st = r.
Proof.
  intros IH. revert st. induction ins as [|i ins IHins]; intros st Hrun Hr;
    simpl in *; [done|].
  assert (visit_input fuel h i st ≠ OutOfFuel →
          visit_input fuel' h i st = visit_input fuel h i st) as Hi.
  { unfold visit_input. destruct (decide (i ∈ st.2)); [done|].
    intros Hne. by apply IH. }
  destruct (visit_input fuel h i st) as [t|e|] eqn:Hvisit.
  - rewrite Hi by done. by apply IHins.
  - rewrite Hi by done. done.
  - by subst.
Qed.

Lemma recursive_helper_fuel_mono fuel fuel' h node st r :
  fuel ≤ fuel' →
  recursive_helper fuel h node st = r → r ≠ OutOfFuel →
  recursive_helper fuel' h node st = r.
Proof.
  revert fuel' node st r.
  induction fuel as [|fuel IH]; intros fuel' node st r Hle Hrun Hr;
    [by subst|].
  destruct fuel' as [|fuel']; [lia|].
  rewrite recursive_helper_unfold in *.
  destruct (h !! node) as [[cls [ins|] o|v o|v o|v o]|]; try done.
  destruct (for_in (visit_input fuel h) ins st) as [t|e|] eqn:Hloop;
    [| |by subst].
  all: rewrite (visit_inputs_fuel_mono fuel fuel' h ins st _
                  (λ i u r', IH fuel' i u r' ltac:(lia)) Hloop); done.
Qed.

(** ** No exception on well-formed stores *)

Lemma visit_inputs_no_raise fuel h ins st e :
  (∀ i t, i ∈ ins → recursive_helper fuel h i t ≠ Raise e) →
  for_in (visit_input fuel h) ins st ≠ Raise e.
Proof.
  revert st. induction ins as [|i ins IH]; intros st Hall; simpl; [done|].
  destruct (visit_input fuel h i st) as [t|e'|] eqn:Hi; try done.
  - apply IH. intros j u Hj. apply Hall. by right.
  - intros [= ->]. unfold visit_input in Hi.
    destruct (decide (i ∈ st.2)); [done|].
    by apply (Hall i st); [left|].
Qed.

Lemma recursive_helper_no_raise fuel h node st e :
  well_formed_from h node → recursive_helper fuel h node st ≠ Raise e.
Proof.
  revert node st. induction fuel as [|fuel IH]; intros node st Hwf; [done|].
  rewrite recursive_helper_unfold.
  pose proof (Hwf node (rtc_refl _ _)) as Hproper.
  unfold proper_node in Hproper.
  destruct (h !! node) as [[cls [ins|] o|v o|v o|v o]|] eqn:Hnode;
    try done; try by destruct st.
  destruct (for_in (visit_input fuel h) ins st) as [[ord vis]|e'|] eqn:Hloop;
    try done.
  intros [= ->]. revert Hloop. apply visit_inputs_no_raise.
  intros i t Hi. apply IH. eapply well_formed_from_edge; [done|].
  unfold edge. by erewrite inputs_of_operation.
Qed.

(** ** topology_sort *)

Lemma sort_inv_initial h : sort_inv h ([], ∅).
Proof. split; [done | apply inputs_first_nil]. Qed.

Lemma topology_sort_Done fuel h root ordering :
  topology_sort fuel h root = Done ordering →
  ∃ visited_nodes,
    recursive_helper fuel h root ([], ∅) = Done (ordering, visited_nodes).
Proof.
  unfold topology_sort.
  destruct (recursive_helper fuel h root ([], ∅)) as [[ord vis]| |];
    try done.
  intros [= ->]. eauto.
Qed.

Lemma topology_sort_post fuel h root ordering :
  topology_sort fuel h root = Done ordering →
  inputs_first h ordering ∧ root ∈ ordering ∧ last ordering = Some root ∧
  (∀ y, y ∈ ordering → reachable h root y) ∧ NoDup ordering.
Proof.
  intros [vis Hrun]%topology_sort_Done.
  apply recursive_helper_post in Hrun
    as ([_ Hord] & Hin & Hlast & new & Hnew & Hreach & Hnd);
    [|apply sort_inv_initial|by intros ?%elem_of_nil].
  simpl in *. repeat split; try done.
  - intros y Hy. apply Hreach. by rewrite Hnew in Hy.
  - apply Hnd; [|constructor]. by eapply inputs_first_acyclic.
Qed.

Lemma topology_sort_terminates h root :
  well_formed_from h root → acyclic_from h root →
  ∃ n, ∀ fuel, n ≤ fuel → ∃ ordering, topology_sort fuel h root = Done ordering.
Proof.
  intros Hwf Hac.
  destruct (recursive_helper_terminates h root) as [n Hn];
    [by apply acyclic_grounded|].
  exists n. intros fuel Hfuel. unfold topology_sort.
  destruct (Hn fuel Hfuel ([], ∅)) as [[ord vis] ->]. eauto.
Qed.

Lemma topology_sort_fuel_mono fuel fuel' h root r :
  fuel ≤ fuel' → topology_sort fuel h root = r → r ≠ OutOfFuel →
  topology_sort fuel' h root = r.
Proof.
  unfold topology_sort. intros Hle Hrun Hr.
  destruct (recursive_helper fuel h root ([], ∅)) as [[ord vis]|e|] eqn:Hh;
    [| |by subst].
  all: by rewrite (recursive_helper_fuel_mono fuel fuel' h root _ _ Hle Hh).
Qed.

Lemma topology_sort_cycle fuel h root x :
  well_formed_from h root → reachable h root x → tc (edge h) x x →
  topology_sort fuel h root = OutOfFuel.
Proof.
  intros Hwf Hx Hcyc.
  destruct (topology_sort fuel h root) as [ordering|e|] eqn:Hsort; [| |done].
  - apply topology_sort_post in Hsort as (Hord & Hroot & _).
    destruct (inputs_first_acyclic h ordering root Hord Hroot x Hx Hcyc).
  - unfold topology_sort in Hsort.
    destruct (recursive_helper fuel h root ([], ∅)) as [[ord vis]|e'|] eqn:Hh;
      try done.
    injection Hsort as ->. by apply recursive_helper_no_raise in Hh.
Qed.

End TopologySort.

(** * What a run leaves alone *)

Section Structure.
Context {Value : Type} `{B : Backend Value}.
Implicit Types (h : gmap loc (@Node Value)) (x y node root : loc).
Implicit Types (n : @Node Value) (v : pyobj Value).
Implicit Types (feed_dict : gmap loc (pyobj Value)).

Lemma skeleton_with_output v n : skeleton (with_output v n) = skeleton n.
Proof. by destruct n. Qed.

Lemma with_output_skeleton v n1 n2 :
  skeleton n1 = skeleton n2 → with_output v n1 = with_output v n2.
Proof. destruct n1, n2; simpl; congruence. Qed.

Lemma lookup_set_output h node v l :
  set_output node v h !! l =
  if decide (node = l) then with_output v <$> h !! l else h !! l.
Proof.
  unfold set_output. rewrite lookup_alter. by destruct (decide _); subst.
Qed.

Lemma lookup_set_output_ne h node v l :
  node ≠ l → set_output node v h !! l = h !! l.
Proof. intros. rewrite lookup_set_output. by destruct (decide _). Qed.

Global Instance same_structure_equiv : Equivalence (@same_structure Value).
Proof.
  split.
  - by intros h l.
  - intros h1 h2 H12 l. by rewrite H12.
  - intros h1 h2 h3 H12 H23 l. by rewrite H12.
Qed.

Lemma same_structure_set_output h node v :
  same_structure h (set_output node v h).
Proof.
  intros l. rewrite lookup_set_output. destruct (decide _); [|done].
  destruct (h !! l); simpl; [|done]. by rewrite skeleton_with_output.
Qed.

Lemma same_structure_lookup h1 h2 l n1 :
  same_structure h1 h2 → h1 !! l = Some n1 →
  ∃ n2, h2 !! l = Some n2 ∧ skeleton n1 = skeleton n2.
Proof.
  intros Hs Hl. specialize (Hs l). rewrite Hl in Hs.
  destruct (h2 !! l) as [n2|]; simplify_eq/=. eauto.
Qed.

Lemma same_structure_lookup_None h1 h2 l :
  same_structure h1 h2 → h1 !! l = None → h2 !! l = None.
Proof.
  intros Hs Hl. specialize (Hs l). rewrite Hl in Hs.
  by destruct (h2 !! l).
Qed.

Lemma same_structure_dom h1 h2 : same_structure h1 h2 → dom h1 = dom h2.
Proof.
  intros Hs. apply set_eq. intros l. rewrite !elem_of_dom.
  specialize (Hs l). destruct (h1 !! l), (h2 !! l); simplify_eq/=;
    split; intros [? ?]; by eauto.
Qed.

Lemma same_structure_inputs_of h1 h2 x :
  same_structure h1 h2 → inputs_of h1 x = inputs_of h2 x.
Proof.
  intros Hs. unfold inputs_of. specialize (Hs x).
  destruct (h1 !! x) as [[]|], (h2 !! x) as [[]|]; by simplify_eq/=.
Qed.

Lemma same_structure_edge h1 h2 x y :
  same_structure h1 h2 → edge h1 x y ↔ edge h2 x y.
Proof. intros Hs. unfold edge. by rewrite (same_structure_inputs_of h1 h2). Qed.

Lemma same_structure_inputs_first h1 h2 ordering :
  same_structure h1 h2 → inputs_first h1 ordering → inputs_first h2 ordering.
Proof.
  intros Hs Hord i x y Hi Hxy. apply (Hord i x y Hi).
  by apply (same_structure_edge h1 h2).
Qed.

(** The traversal reads only the structure. *)
Lemma recursive_helper_same_structure fuel h1 h2 node st :
  same_structure h1 h2 →
  recursive_helper fuel h1 node st = recursive_helper fuel h2 node st.
Proof.
  intros Hs. revert node st.
  induction fuel as [|fuel IH]; intros node st; [done|].
  rewrite !recursive_helper_unfold.
  assert (∀ ins t, for_in (visit_input fuel h1) ins t =
                   for_in (visit_input fuel h2) ins t) as Hloop.
  { induction ins as [|i ins IHins]; intros t; simpl; [done|].
    unfold visit_input at 1 3. destruct (decide (i ∈ t.2)); [done|].
    rewrite IH. by destruct (recursive_helper fuel h2 i t). }
  specialize (Hs node).
  destruct (h1 !! node) as [[? [?|] ?|? ?|? ?|? ?]|],
           (h2 !! node) as [[? [?|] ?|? ?|? ?|? ?]|];
    simplify_eq/=; try done.
  by rewrite Hloop.
Qed.

Lemma topology_sort_same_structure fuel h1 h2 root :
  same_structure h1 h2 →
  topology_sort fuel h1 root = topology_sort fuel h2 root.
Proof.
  intros Hs. unfold topology_sort.
  by rewrite (recursive_helper_same_structure fuel h1 h2).
Qed.

(** ** One iteration of the loop of [run] *)

Lemma run_node_Done feed_dict node h h' :
  run_node feed_dict node h = Done h' →
  ∃ v, node_value feed_dict node h = Done v ∧ h' = set_output node v h.
Proof.
  unfold run_node. intros Hrun.
  destruct (node_value feed_dict node h) as [v| |]; simplify_eq. eauto.
Qed.

Lemma run_node_same_structure feed_dict node h h' :
  run_node feed_dict node h = Done h' → same_structure h h'.
Proof.
  intros (v & _ & ->)%run_node_Done. apply same_structure_set_output.
Qed.

Lemma run_node_frame feed_dict node h h' l :
  run_node feed_dict node h = Done h' → node ≠ l → h' !! l = h !! l.
Proof.
  intros (v & _ & ->)%run_node_Done Hne. by apply lookup_set_output_ne.
Qed.

Lemma run_loop_same_structure feed_dict ordering h :
  same_structure h (run_loop feed_dict ordering h).2.
Proof.
  revert h. induction ordering as [|x ordering IH]; intros h; simpl;
    [done|].
  destruct (run_node feed_dict x h) as [h'| |] eqn:Hx; simpl; try done.
  etrans; [by eapply run_node_same_structure | apply IH].
Qed.

Lemma run_loop_frame feed_dict ordering h l :
  l ∉ ordering → (run_loop feed_dict ordering h).2 !! l = h !! l.
Proof.
  revert h. induction ordering as [|x ordering IH]; intros h Hl; simpl;
    [done|].
  apply not_elem_of_cons in Hl as [Hne Hl].
  destruct (run_node feed_dict x h) as [h'| |] eqn:Hx; simpl; try done.
  rewrite IH by done. by eapply run_node_frame.
Qed.

Lemma get_output_set_output h l v :
  is_Some (h !! l) → get_output (set_output l v h) l = Done v.
Proof.
  intros [n Hn]. unfold get_output. rewrite lookup_set_output.
  destruct (decide (l = l)); [|done]. rewrite Hn. by destruct n.
Qed.

End Structure.

(** * Two runs from stores of the same structure *)

Section Determinism.
Context {Value : Type} `{B : Backend Value}.
Implicit Types (h : gmap loc (@Node Value)) (x y node root : loc).
Implicit Types (feed_dict : gmap loc (pyobj Value)).

Lemma get_output_agree h1 h2 y :
  h1 !! y = h2 !! y → get_output h1 y = get_output h2 y.
Proof. unfold get_output. by intros ->. Qed.

Lemma get_outputs_agree h1 h2 ins :
  (∀ y, y ∈ ins → h1 !! y = h2 !! y) → get_outputs h1 ins = get_outputs h2 ins.
Proof.
  induction ins as [|i ins IH]; intros Hall; simpl; [done|].
  rewrite (get_output_agree h1 h2 i) by (apply Hall; by left).
  rewrite IH; [done|]. intros y Hy. apply Hall. by right.
Qed.

(** The value an iteration assigns depends on the structure and on the
    outputs of the inputs of the node only. *)
Lemma node_value_agree feed_dict node h1 h2 :
  same_structure h1 h2 →
  (∀ y, edge h1 node y → h1 !! y = h2 !! y) →
  node_value feed_dict node h1 = node_value feed_dict node h2.
Proof.
  intros Hs Hin. unfold node_value. unfold edge, inputs_of in Hin.
  specialize (Hs node).
  destruct (h1 !! node) as [[? [ins|] ?|? ?|? ?|? ?]|],
           (h2 !! node) as [[? [?|] ?|? ?|? ?|? ?]|];
    simplify_eq/=; try done.
  match goal with
  | |- context [get_outputs h1 ?i] => by rewrite (get_outputs_agree h1 h2 i)
  end.
Qed.

Lemma set_output_agree h1 h2 node v :
  same_structure h1 h2 →
  set_output node v h1 !! node = set_output node v h2 !! node.
Proof.
  intros Hs. rewrite !lookup_set_output. destruct (decide _); [|done].
  specialize (Hs node).
  destruct (h1 !! node) as [n1|], (h2 !! node) as [n2|]; simplify_eq/=;
    [|done].
  f_equal. by apply with_output_skeleton.
Qed.

(** Started from two stores of the same structure that agree on the nodes
    [pre] placed before [ordering], the loop ends the same way on both; the
    nodes it has processed agree afterwards and the others are untouched. *)
Lemma run_loop_agree feed_dict ordering :
  ∀ pre h1 h2,
    same_structure h1 h2 →
    (∀ l, l ∈ pre → h1 !! l = h2 !! l) →
    inputs_first h1 (pre ++ ordering) →
    (run_loop feed_dict ordering h1).1 = (run_loop feed_dict ordering h2).1 ∧
    ∃ processed rest,
      ordering = processed ++ rest ∧
      (∀ l, l ∈ pre ++ processed →
         (run_loop feed_dict ordering h1).2 !! l =
         (run_loop feed_dict ordering h2).2 !! l) ∧
      (∀ l, l ∉ processed →
         (run_loop feed_dict ordering h1).2 !! l = h1 !! l ∧
         (run_loop feed_dict ordering h2).2 !! l = h2 !! l) ∧
      ((run_loop feed_dict ordering h1).1 = Done () → rest = []).
Proof.
  induction ordering as [|x ordering IH]; intros pre h1 h2 Hs Hpre Hord.
  { simpl. split; [done|]. exists [], []. repeat split; auto.
    intros l Hl. rewrite app_nil_r in Hl. auto. }
  assert (node_value feed_dict x h1 = node_value feed_dict x h2) as Hv.
  { apply node_value_agree; [done|]. intros y Hxy. apply Hpre.
    destruct (Hord (length pre) x y) as (j & Hj & Hjy); [|done|].
    { by rewrite lookup_app_r, Nat.sub_diag by lia. }
    rewrite lookup_app_l in Hjy by done. by eapply list_elem_of_lookup_2. }
  simpl. unfold run_node. rewrite <- Hv.
  destruct (node_value feed_dict x h1) as [v|e|] eqn:Hx; simpl.
  - destruct (IH (pre ++ [x]) (set_output x v h1) (set_output x v h2))
      as (Hfst & processed & rest & Hsplit & Hagree & Hframe & Hdone).
    + etrans; [symmetry; apply same_structure_set_output|].
      etrans; [done | apply same_structure_set_output].
    + intros l [Hl|Hl%list_elem_of_singleton]%elem_of_app.
      * destruct (decide (x = l)) as [->|Hne];
          [by apply set_output_agree|].
        rewrite !lookup_set_output_ne by done. by apply Hpre.
      * subst. by apply set_output_agree.
    + rewrite <- app_assoc. simpl.
      eapply same_structure_inputs_first; [|done].
      apply same_structure_set_output.
    + split; [done|]. exists (x :: processed), rest.
      split; [by rewrite Hsplit|]. split; [|split; [|done]].
      * intros l Hl. apply Hagree. rewrite <- app_assoc. done.
      * intros l [Hne Hl]%not_elem_of_cons.
        destruct (Hframe l Hl) as [-> ->].
        by rewrite !lookup_set_output_ne.
  - split; [done|]. exists [], (x :: ordering). repeat split; auto; [|done].
    intros l Hl. rewrite app_nil_r in Hl. auto.
  - split; [done|]. exists [], (x :: ordering). repeat split; auto; [|done].
    intros l Hl. rewrite app_nil_r in Hl. auto.
Qed.

(** Running the loop again from the store it left changes nothing. *)
Lemma run_loop_idempotent feed_dict ordering h :
  inputs_first h ordering →
  run_loop feed_dict ordering (run_loop feed_dict ordering h).2 =
  run_loop feed_dict ordering h.
Proof.
  intros Hord.
  destruct (run_loop_agree feed_dict ordering [] h
              (run_loop feed_dict ordering h).2)
    as (Hfst & processed & rest & _ & Hagree & Hframe & _).
  - apply run_loop_same_structure.
  - by intros l ?%elem_of_nil.
  - done.
  - destruct (run_loop feed_dict ordering h) as [rl1 h1]. simpl in *.
    destruct (run_loop feed_dict ordering h1) as [rl2 h2]. simpl in *.
    f_equal; [done|]. apply map_eq. intros l.
    destruct (decide (l ∈ processed)) as [Hl|Hl].
    + symmetry. by apply Hagree.
    + by destruct (Hframe l Hl) as [_ ->].
Qed.

Lemma Session_run_eq fuel operation feed_dict (w : world) :
  Session_run fuel operation feed_dict w =
  match topology_sort fuel (heap w) operation with
  | Done nodes_sorted =>
      let rh := run_loop feed_dict nodes_sorted (heap w) in
      (match rh.1 with
       | Done _ => get_output rh.2 operation
       | Raise e => Raise e
       | OutOfFuel => OutOfFuel
       end, with_heap w rh.2)
  | Raise e => (Raise e, w)
  | OutOfFuel => (OutOfFuel, w)
  end.
Proof.
  unfold Session_run.
  destruct (topology_sort fuel (heap w) operation) as [ordering|e|];
    [|done..].
  by destruct (run_loop feed_dict ordering (heap w)) as [[[]|e|] h].
Qed.

Lemma Session_run_frame fuel operation feed_dict (w : world) :
  same_structure (heap w) (heap (Session_run fuel operation feed_dict w).2) ∧
  graphs (Session_run fuel operation feed_dict w).2 = graphs w ∧
  default_graph (Session_run fuel operation feed_dict w).2 = default_graph w.
Proof.
  rewrite Session_run_eq.
  destruct (topology_sort fuel (heap w) operation) as [ordering|e|];
    [|done..].
  simpl. split; [|done]. apply run_loop_same_structure.
Qed.

End Determinism.

(** * How a run can end *)

Section Progress.
Context {Value : Type} `{B : Backend Value}.
Implicit Types (h : gmap loc (@Node Value)) (x y node root : loc).
Implicit Types (feed_dict : gmap loc (pyobj Value)).

Lemma of_result_terminates {A : Type} (r : result A) : of_result r ≠ OutOfFuel.
Proof. by destruct r. Qed.

Lemma forward_terminates cls (inputs : list (pyobj Value)) :
  forward cls inputs ≠ OutOfFuel.
Proof.
  destruct cls, inputs as [|[|a] [|[|b] [|c inputs]]]; simpl; try done;
    apply of_result_terminates.
Qed.

Lemma get_outputs_Done h ins :
  (∀ y, y ∈ ins → has_output h y) → ∃ inputs, get_outputs h ins = Done inputs.
Proof.
  induction ins as [|i ins IH]; intros Hall; simpl; [eauto|].
  destruct (Hall i) as [v ->]; [by left|].
  destruct IH as [vs ->]; [|eauto]. intros y Hy. apply Hall. by right.
Qed.

Lemma has_output_set_output h x v l :
  has_output h l → has_output (set_output x v h) l.
Proof.
  intros [u Hu]. destruct (decide (x = l)) as [->|Hne].
  - exists v. apply get_output_set_output. unfold get_output in Hu.
    destruct (h !! l); [eauto | done].
  - exists u. unfold get_output in *. by rewrite lookup_set_output_ne.
Qed.

Lemma same_structure_proper_node h1 h2 x :
  same_structure h1 h2 → proper_node h1 x → proper_node h2 x.
Proof.
  intros Hs. unfold proper_node. specialize (Hs x).
  destruct (h1 !! x) as [[? [?|] ?|? ?|? ?|? ?]|],
           (h2 !! x) as [[? [?|] ?|? ?|? ?|? ?]|]; by simplify_eq/=.
Qed.

Lemma same_structure_unfed h1 h2 feed_dict p :
  same_structure h1 h2 → unfed h1 feed_dict p → unfed h2 feed_dict p.
Proof.
  intros Hs [(v & o & Hp) Hfeed]. split; [|done].
  destruct (same_structure_lookup h1 h2 p _ Hs Hp) as (n & Hn & Hsk).
  destruct n; simplify_eq/=. eauto.
Qed.

Lemma get_outputs_length h ins inputs :
  get_outputs h ins = Done inputs → length inputs = length ins.
Proof.
  revert inputs. induction ins as [|i ins IH]; intros inputs Hget;
    simpl in Hget; [by simplify_eq|].
  destruct (get_output h i); try done.
  destruct (get_outputs h ins) as [vs| |]; try done.
  simplify_eq. simpl. by rewrite (IH vs).
Qed.

(** One iteration on a proper node whose inputs have their outputs: it
    assigns a value, unless the node is an unfed placeholder or its forward
    function raises. *)
Lemma node_value_cases feed_dict x h :
  proper_node h x → (∀ y, edge h x y → has_output h y) →
  (∃ v, node_value feed_dict x h = Done v ∧ ¬ unfed h feed_dict x) ∨
  (∃ e, node_value feed_dict x h = Raise e ∧
        ((e = MissingFeedError ∧ unfed h feed_dict x) ∨ forward_raises h x e)).
Proof.
  unfold proper_node, node_value, edge, inputs_of, unfed, forward_raises.
  intros Hproper Hin.
  destruct (h !! x) as [[cls [ins|] o|v o|v o|v o]|] eqn:Hx; try done.
  - destruct (get_outputs_Done h ins Hin) as [inputs Hget]. rewrite Hget.
    destruct (forward cls inputs) as [v|e|] eqn:Hfwd.
    + left. exists v. split; [done|]. by intros [(? & ? & ?) _].
    + right. exists e. split; [done|]. right. by exists cls, ins, o, inputs.
    + by apply forward_terminates in Hfwd.
  - destruct (feed_dict !! x) as [u|] eqn:Hfeed.
    + left. exists u. split; [done|]. by intros [_ ?].
    + right. exists KeyError. split; [done|]. left. split; [done|]. eauto.
  - left. exists v. split; [done|]. by intros [(? & ? & ?) _].
  - left. exists v. split; [done|]. by intros [(? & ? & ?) _].
Qed.

(** The loop over an ordering that puts inputs first never runs out of
    fuel; when it goes through, no placeholder of the ordering was unfed and
    every node of the ordering has its output. *)
Lemma run_loop_cases feed_dict ordering :
  ∀ pre h,
    (∀ l, l ∈ pre → has_output h l) →
    inputs_first h (pre ++ ordering) →
    (∀ x, x ∈ ordering → proper_node h x) →
    match (run_loop feed_dict ordering h).1 with
    | Done _ =>
        (∀ p, p ∈ ordering → ¬ unfed h feed_dict p) ∧
        (∀ l, l ∈ pre ++ ordering →
           has_output (run_loop feed_dict ordering h).2 l)
    | Raise e => True
    | OutOfFuel => False
    end.
Proof.
  induction ordering as [|x ordering IH]; intros pre h Hpre Hord Hproper.
  { simpl. split; [by intros p ?%elem_of_nil|].
    intros l Hl. rewrite app_nil_r in Hl. auto. }
  simpl. unfold run_node.
  destruct (node_value_cases feed_dict x h)
    as [(v & -> & Hfed) | (e & -> & He)].
  - apply Hproper. by left.
  - intros y Hxy. apply Hpre.
    destruct (Hord (length pre) x y) as (j & Hj & Hjy); [|done|].
    { by rewrite lookup_app_r, Nat.sub_diag by lia. }
    rewrite lookup_app_l in Hjy by done. by eapply list_elem_of_lookup_2.
  - pose proof (same_structure_set_output h x v) as Hs.
    assert (is_Some (h !! x)) as Hx.
    { specialize (Hproper x ltac:(by left)). unfold proper_node in Hproper.
      destruct (h !! x); [eauto | done]. }
    specialize (IH (pre ++ [x]) (set_output x v h)).
    rewrite <- app_assoc in IH. simpl in IH.
    assert (∀ l, l ∈ pre ++ [x] → has_output (set_output x v h) l) as Hpre'.
    { intros l [Hl|Hl%list_elem_of_singleton]%elem_of_app.
      - by apply has_output_set_output, Hpre.
      - subst. exists v. by apply get_output_set_output. }
    assert (∀ y, y ∈ ordering → proper_node (set_output x v h) y) as Hproper'.
    { intros y Hy. eapply same_structure_proper_node; [done|].
      apply Hproper. by right. }
    specialize (IH Hpre' (same_structure_inputs_first _ _ _ Hs Hord) Hproper').
    destruct (run_loop feed_dict ordering (set_output x v h)) as [[[]|e|] h'];
      simpl in *; [|done..].
    destruct IH as [Hall Hout]. split; [|done].
    intros p [->|Hp]%elem_of_cons; [done|].
    intros Hun. apply (Hall p Hp). by eapply same_structure_unfed.
  - done.
Qed.

(** A loop that raises went through a prefix of the ordering, and the
    iteration on the next node raised in the store the prefix left, which
    is the store the loop leaves. *)
Lemma run_loop_Raise feed_dict ordering :
  ∀ h e h',
    run_loop feed_dict ordering h = (Raise e, h') →
    ∃ passed x rest,
      ordering = passed ++ x :: rest ∧
      run_loop feed_dict passed h = (Done (), h') ∧
      node_value feed_dict x h' = Raise e.
Proof.
  induction ordering as [|x ordering IH]; intros h e h' Hrun; [done|].
  simpl in Hrun. unfold run_node in Hrun.
  destruct (node_value feed_dict x h) as [v|e'|] eqn:Hval; [| |done].
  - destruct (IH _ _ _ Hrun) as (passed & y & rest & -> & Hpassed & Hy).
    exists (x :: passed), y, rest. split; [done|]. split; [|done].
    simpl. unfold run_node. by rewrite Hval.
  - injection Hrun as <- <-. by exists [], x, ordering.
Qed.

Lemma inputs_first_app_l h (l1 l2 : list loc) :
  inputs_first h (l1 ++ l2) → inputs_first h l1.
Proof.
  intros Hord i x y Hi Hxy.
  destruct (Hord i x y) as (j & Hj & Hjy); [by apply lookup_app_l_Some|done|].
  exists j. split; [done|]. rewrite lookup_app_l in Hjy; [done|].
  apply lookup_lt_Some in Hi. lia.
Qed.

(** The loop on a prefix of an ordering that puts inputs first, stopped by
    an iteration that raises: no placeholder of the prefix was unfed, and
    the node that raised is an unfed placeholder, or an operation whose
    forward raised on the outputs the loop had computed. *)
Lemma run_loop_stopped feed_dict h passed x rest h' e :
  inputs_first h (passed ++ x :: rest) →
  (∀ y, y ∈ passed ++ x :: rest → proper_node h y) →
  run_loop feed_dict passed h = (Done (), h') →
  node_value feed_dict x h' = Raise e →
  (∀ p, p ∈ passed → ¬ unfed h feed_dict p) ∧
  ((e = MissingFeedError ∧ unfed h feed_dict x) ∨ forward_raises h' x e).
Proof.
  intros Hord Hproper Hpassed Hval.
  assert (∀ l, l ∈ [] → has_output h l) as Hnil by by intros l ?%elem_of_nil.
  pose proof (run_loop_cases feed_dict passed [] h Hnil
                (inputs_first_app_l _ _ _ Hord)
                (λ y Hy, Hproper y (proj2 (elem_of_app _ _ _) (or_introl Hy))))
    as Hloop.
  pose proof (run_loop_same_structure feed_dict passed h) as Hs.
  rewrite Hpassed in Hloop, Hs. simpl in Hloop, Hs.
  destruct Hloop as [Hfed Hout]. split; [done|].
  destruct (node_value_cases feed_dict x h')
    as [(v & Hv & _) | (e' & He' & Hcase)].
  - eapply same_structure_proper_node; [done|].
    apply Hproper, elem_of_app. right. by left.
  - intros y Hxy. apply Hout.
    destruct (Hord (length passed) x y) as (j & Hj & Hjy).
    + by rewrite lookup_app_r, Nat.sub_diag by lia.
    + by apply (same_structure_edge h h').
    + rewrite lookup_app_l in Hjy by done. by eapply list_elem_of_lookup_2.
  - congruence.
  - assert (e' = e) as -> by congruence.
    destruct Hcase as [[-> Hun] | Hraise]; [left | by right].
    split; [done|]. eapply same_structure_unfed; [|done]. by symmetry.
Qed.

Lemma Session_run_fuel_mono fuel fuel' operation feed_dict (w : world) :
  fuel ≤ fuel' → topology_sort fuel (heap w) operation ≠ OutOfFuel →
  Session_run fuel' operation feed_dict w =
  Session_run fuel operation feed_dict w.
Proof.
  intros Hle Hsort. unfold Session_run.
  by rewrite (topology_sort_fuel_mono fuel fuel' (heap w) operation _ Hle eq_refl).
Qed.

End Progress.

(** * Registration *)

Section Registration.
Context {Value : Type} `{B : Backend Value}.
Implicit Types (w : world (Value := Value)) (log : list event).
Implicit Types (g self : loc) (v : variant) (gr : Graph).

Lemma constructed_under_app g v log1 log2 :
  constructed_under g v (log1 ++ log2) =
  constructed_under g v log1 ++ constructed_under g v log2.
Proof. unfold constructed_under. by rewrite filter_app, fmap_app. Qed.

Lemma constructed_under_singleton g v e :
  constructed_under g v [e] =
  if decide (ev_graph e = g ∧ ev_variant e = v) then [ev_node e] else [].
Proof.
  unfold constructed_under. rewrite filter_cons, filter_nil.
  by destruct (decide _).
Qed.

Lemma constructed_under_other_graph g v log :
  (∀ e, e ∈ log → ev_graph e ≠ g) → constructed_under g v log = [].
Proof.
  intros Hlog. unfold constructed_under.
  induction log as [|e log IH]; [done|].
  rewrite filter_cons. destruct (decide _) as [[Hg _]|_].
  - destruct (Hlog e); [by left | done].
  - apply IH. intros e' He'. apply Hlog. by right.
Qed.

Lemma elem_of_constructed_under g v log l :
  l ∈ constructed_under g v log ↔
  ∃ e, e ∈ log ∧ ev_node e = l ∧ ev_graph e = g ∧ ev_variant e = v.
Proof.
  unfold constructed_under. rewrite list_elem_of_fmap. split.
  - intros (e & -> & [[? ?] He]%list_elem_of_filter). eauto.
  - intros (e & He & <- & Hg & Hv). exists e. split; [done|].
    by apply list_elem_of_filter.
Qed.

Lemma event_by_node log e1 e2 :
  NoDup (ev_node <$> log) → e1 ∈ log → e2 ∈ log →
  ev_node e1 = ev_node e2 → e1 = e2.
Proof.
  induction log as [|e log IH]; intros Hnd H1 H2 Heq;
    [by apply elem_of_nil in H1|].
  rewrite fmap_cons in Hnd. apply NoDup_cons in Hnd as [Hnotin Hnd].
  apply elem_of_cons in H1 as [->|H1], H2 as [->|H2]; auto.
  - destruct Hnotin. rewrite Heq. by apply list_elem_of_fmap_2.
  - destruct Hnotin. rewrite <- Heq. by apply list_elem_of_fmap_2.
Qed.

Lemma NoDup_constructed_under g v log :
  NoDup (ev_node <$> log) → NoDup (constructed_under g v log).
Proof.
  unfold constructed_under. induction log as [|e log IH]; intros Hnd.
  { rewrite filter_nil. constructor. }
  rewrite fmap_cons in Hnd. apply NoDup_cons in Hnd as [Hnotin Hnd].
  rewrite filter_cons. destruct (decide _); [|by apply IH].
  rewrite fmap_cons. apply NoDup_cons. split; [|by apply IH].
  intros (e' & Heq & [_ He']%list_elem_of_filter)%list_elem_of_fmap.
  apply Hnotin. rewrite Heq. by apply list_elem_of_fmap_2.
Qed.

Lemma registry_inv_initial :
  registry_inv (initial_world (Value := Value)) [].
Proof.
  split; simpl.
  - constructor.
  - by intros e ?%elem_of_nil.
  - by intros e ?%elem_of_nil.
  - intros l [n Hn]. by rewrite lookup_empty in Hn.
  - intros g gr v Hg. by rewrite lookup_empty in Hg.
Qed.

(** A call that keeps the graphs and the variant of every node. *)
Lemma registry_inv_frame w w' log :
  registry_inv w log →
  graphs w' = graphs w →
  (∀ l, variant_of <$> heap w' !! l = variant_of <$> heap w !! l) →
  registry_inv w' log.
Proof.
  intros [Hnd Hvar Hgraph Hall Hcoll] Hg Hh. split; try done.
  - intros e He. rewrite Hh. by apply Hvar.
  - intros e He. rewrite Hg. by apply Hgraph.
  - intros l [n Hn]. apply Hall. specialize (Hh l). rewrite Hn in Hh.
    destruct (heap w !! l); [eauto | done].
  - intros g gr v. rewrite Hg. apply Hcoll.
Qed.

Lemma registry_inv_Graph_init w log :
  registry_inv w log → registry_inv (Graph_init w).2 log.
Proof.
  intros [Hnd Hvar Hgraph Hall Hcoll]. unfold Graph_init.
  split; simpl; try done.
  - intros e He. rewrite dom_insert_L. apply elem_of_union_r. by apply Hgraph.
  - intros g gr v. rewrite lookup_insert.
    destruct (decide (fresh (dom (graphs w)) = g)) as [<-|Hne].
    + intros [= <-]. rewrite constructed_under_other_graph; [by destruct v|].
      intros e He Heq. apply (is_fresh (dom (graphs w))).
      rewrite <- Heq. by apply Hgraph.
    + apply Hcoll.
Qed.

(** A constructor: the new node is appended to the collection of its
    variant in the current graph, and to nothing else. *)
Lemma registry_inv_construct w log n append v :
  variant_of n = v →
  (∀ self gr v', collection v' (append self gr) =
                 collection v' gr ++ if decide (v' = v) then [self] else []) →
  registry_inv w log →
  registry_inv (constructed v (default_graph w) (construct n append w)).1
               (log ++ (constructed v (default_graph w)
                          (construct n append w)).2).
Proof.
  intros Hn Happend Hinv. unfold construct, constructed.
  destruct (default_graph w) as [g|] eqn:Hcur; simpl;
    [|by rewrite app_nil_r].
  destruct (graphs w !! g) as [gr|] eqn:Hgr; simpl; [|by rewrite app_nil_r].
  destruct Hinv as [Hnd Hvar Hgraph Hall Hcoll].
  set (self := fresh (dom (heap w))).
  assert (∀ e, e ∈ log → ev_node e ≠ self) as Hfresh.
  { intros e He Heq. apply (is_fresh (dom (heap w))). fold self.
    rewrite <- Heq. apply elem_of_dom. specialize (Hvar e He).
    destruct (heap w !! ev_node e); [eauto | done]. }
  split; simpl.
  - rewrite fmap_app. apply NoDup_app. split; [done|]. split.
    + intros l (e & -> & He)%list_elem_of_fmap Hl%list_elem_of_singleton.
      by apply (Hfresh e).
    + apply NoDup_singleton.
  - intros e [He|He%list_elem_of_singleton]%elem_of_app.
    + rewrite lookup_insert_ne by (symmetry; by apply Hfresh). by apply Hvar.
    + subst e. simpl. rewrite lookup_insert_eq. simpl. by rewrite Hn.
  - intros e [He|He%list_elem_of_singleton]%elem_of_app.
    + rewrite dom_insert_L. apply elem_of_union_r. by apply Hgraph.
    + subst e. simpl. rewrite dom_insert_L. apply elem_of_union_l.
      by apply elem_of_singleton.
  - intros l. rewrite fmap_app, lookup_insert.
    destruct (decide (self = l)) as [<-|Hne]; intros Hl.
    + apply elem_of_app. right. by apply list_elem_of_singleton.
    + apply elem_of_app. left. by apply Hall.
  - intros g' gr' v'. rewrite lookup_insert, constructed_under_app,
      constructed_under_singleton. simpl.
    destruct (decide (g = g')) as [<-|Hne].
    + intros [= <-]. rewrite Happend, (Hcoll g gr v' Hgr). f_equal.
      destruct (decide (v' = v)) as [->|Hv].
      * by rewrite decide_True.
      * rewrite decide_False; [done|]. by intros [_ ?].
    + intros Hg'. rewrite decide_False by (by intros [? _]).
      rewrite app_nil_r. by apply Hcoll.
Qed.

Lemma registry_inv_exec_call c w log :
  registry_inv w log →
  registry_inv (exec_call c w).1 (log ++ (exec_call c w).2).
Proof.
  intros Hinv. destruct c; simpl.
  - rewrite app_nil_r. by apply registry_inv_Graph_init.
  - rewrite app_nil_r. by eapply registry_inv_frame.
  - apply registry_inv_construct; [done| |done].
    intros self gr []; simpl; by rewrite ?app_nil_r.
  - apply registry_inv_construct; [done| |done].
    intros self gr []; simpl; by rewrite ?app_nil_r.
  - apply registry_inv_construct; [done| |done].
    intros self gr []; simpl; by rewrite ?app_nil_r.
  - apply registry_inv_construct; [done| |done].
    intros self gr []; simpl; by rewrite ?app_nil_r.
  - rewrite app_nil_r. eapply registry_inv_frame; [done|..];
      unfold Variable_set_value.
    + by destruct (heap w !! self) as [[]|].
    + intros l. destruct (heap w !! self) as [[]|] eqn:Hself; try done.
      simpl. rewrite lookup_insert. destruct (decide (self = l)); [|done].
      subst. by rewrite Hself.
  - by rewrite app_nil_r.
  - rewrite app_nil_r.
    pose proof (Session_run_frame fuel operation feed_dict w)
      as (Hs & Hg & _).
    eapply registry_inv_frame; [done|done|].
    intros l. specialize (Hs l).
    destruct (heap w !! l) as [[]|],
      (heap (Session_run fuel operation feed_dict w).2 !! l) as [[]|];
      by simplify_eq/=.
Qed.

Lemma registry_inv_exec_calls cs w log :
  registry_inv w log →
  registry_inv (exec_calls cs w).1 (log ++ (exec_calls cs w).2).
Proof.
  revert w log. induction cs as [|c cs IH]; intros w log Hinv; simpl.
  { by rewrite app_nil_r. }
  pose proof (registry_inv_exec_call c w log Hinv) as Hc.
  destruct (exec_call c w) as [w1 log1]. simpl in Hc.
  specialize (IH w1 (log ++ log1) Hc).
  destruct (exec_calls cs w1) as [w2 log2]. simpl in *.
  by rewrite app_assoc.
Qed.

(** ** Constants through a sequence of calls *)

Lemma holds_constant_construct n append k w self value :
  holds_constant w self value →
  holds_constant (constructed k (default_graph w) (construct n append w)).1
                 self value.
Proof.
  intros [o Hself]. unfold construct, constructed.
  destruct (default_graph w) as [g|]; simpl; [|by exists o].
  destruct (graphs w !! g); simpl; [|by exists o].
  exists o. simpl. rewrite lookup_insert_ne; [done|]. intros Heq.
  apply (is_fresh (dom (heap w))). rewrite Heq. by apply elem_of_dom.
Qed.

Lemma holds_constant_exec_call c w self value :
  holds_constant w self value → holds_constant (exec_call c w).1 self value.
Proof.
  intros Hw.
  destruct c as [|g|cls ins| |v|v|self' v|self' v|fuel operation feed_dict];
    simpl; try done; try by apply holds_constant_construct.
  - destruct Hw as [o Hself]. unfold Variable_set_value.
    destruct (heap w !! self') as [[]|] eqn:Hother; simpl; try by exists o.
    exists o. simpl. rewrite lookup_insert_ne; [done|]. intros ->. congruence.
  - destruct Hw as [o Hself].
    destruct (Session_run_frame fuel operation feed_dict w) as (Hs & _).
    destruct (same_structure_lookup _ _ self _ Hs Hself) as (n & Hn & Hsk).
    destruct n; simplify_eq/=. by eexists.
Qed.

Lemma holds_constant_exec_calls cs w self value :
  holds_constant w self value → holds_constant (exec_calls cs w).1 self value.
Proof.
  revert w. induction cs as [|c cs IH]; intros w Hw; simpl; [done|].
  pose proof (holds_constant_exec_call c w self value Hw) as Hc.
  destruct (exec_call c w) as [w1 log1]. simpl in Hc.
  specialize (IH w1 Hc). by destruct (exec_calls cs w1) as [w2 log2].
Qed.

End Registration.

(** * The claims *)

Section Claims.
Context {Value : Type} `{B : Backend Value}.
Implicit Types (h : gmap loc (@Node Value)) (x y node root : loc).
Implicit Types (w : world (Value := Value)) (v : pyobj Value).
Implicit Types (feed_dict : gmap loc (pyobj Value)).

(** ** Constants and variables *)

(** C3.  Once [Constant(v)] has returned the node [self], then after any
    further sequence of calls (constructions, assignments to variables,
    attempted assignments to constants, runs) assigning to the value of
    [self] fails with ImmutableValueError (Python's [ValueError], raised by
    the property setter) whatever is assigned, the world is left as it was,
    and reading the value returns [v], before and after the attempt. *)
Theorem Constant_immutable w w' self v (cs : list call) :
  Constant_init v w = (Done self, w') →
  let w'' := (exec_calls cs w').1 in
  Constant_value w'' self = Done v ∧
  ∀ v', Constant_value_setter self v' w'' = (Raise ImmutableValueError, w'') ∧
        Constant_value (Constant_value_setter self v' w'').2 self = Done v.
Proof.
  intros Hinit. unfold Constant_init, construct in Hinit.
  destruct (default_graph w) as [g|] eqn:Hcur; [|done].
  destruct (graphs w !! g) as [gr|] eqn:Hgr; simplify_eq.
  match goal with |- context [exec_calls cs ?w1] => set (w' := w1) end.
  assert (holds_constant w' (fresh (dom (heap w))) v) as Hw'.
  { exists None. unfold w'. simpl. by rewrite lookup_insert_eq. }
  destruct (holds_constant_exec_calls cs w' _ v Hw') as [o Ho].
  simpl. unfold Constant_value, Constant_value_setter. simpl.
  by rewrite Ho.
Qed.

(** ** The abstract forward *)

(** C5, as the code has it.  The forward of the base class has an empty
    body: called with no input value it returns [None] and raises nothing;
    called with input values it fails on the number of arguments with a
    [TypeError].  It never raises [NotImplementedError]. *)
Theorem Operation_forward_base (inputs : list (pyobj Value)) :
  forward Operation_base inputs =
    match inputs with
    | [] => Done PyNone
    | _ :: _ => Raise TypeError
    end ∧
  forward Operation_base inputs ≠ Raise NotImplementedError.
Proof. by destruct inputs. Qed.

(** ** Runs on a node that is not an operation *)

(** C10.  For a constant or a variable [n], [topology_sort] returns the
    singleton [[n]] and [Session.run] returns the value [n] currently
    stores, whatever the feed dictionary holds. *)
Theorem run_stored_value fuel w n v o feed_dict :
  heap w !! n = Some (Constant v o) ∨ heap w !! n = Some (Variable_ v o) →
  topology_sort (S fuel) (heap w) n = Done [n] ∧
  (Session_run (S fuel) n feed_dict w).1 = Done v.
Proof.
  intros Hn.
  assert (topology_sort (S fuel) (heap w) n = Done [n]) as Hsort.
  { unfold topology_sort. rewrite recursive_helper_unfold.
    by destruct Hn as [-> | ->]. }
  split; [done|]. unfold Session_run. rewrite Hsort. simpl.
  unfold run_node, node_value.
  destruct Hn as [Hn | Hn]; rewrite Hn; simpl;
    by rewrite get_output_set_output.
Qed.

(** ** The topological sort *)

(** C2.  When the part of the store reachable from [root] is well formed
    and acyclic, [topology_sort] returns, for every fuel above some bound,
    one ordering; in it every input of every operation stands at a strictly
    earlier position than the operation, the root stands last, and no node
    occurs twice. *)
Theorem topology_sort_order h root :
  well_formed_from h root → acyclic_from h root →
  ∃ n ordering,
    (∀ fuel, n ≤ fuel → topology_sort fuel h root = Done ordering) ∧
    inputs_first h ordering ∧
    last ordering = Some root ∧
    NoDup ordering.
Proof.
  intros Hwf Hac.
  destruct (topology_sort_terminates h root Hwf Hac) as [n Hn].
  destruct (Hn n (le_n n)) as [ordering Hsort].
  exists n, ordering. split.
  - intros fuel Hfuel. by apply (topology_sort_fuel_mono n fuel).
  - apply topology_sort_post in Hsort as (? & _ & ? & _ & ?). done.
Qed.


(** ** Runs *)

(** C8.  Whether it returns, raises or runs out of fuel, [Session.run]
    leaves the graphs and the current-graph binding as they were and writes
    nothing but outputs: the same locations hold nodes, and every node keeps
    its class, its input list and its stored value. *)
Theorem Session_run_structure fuel operation feed_dict w :
  let w' := (Session_run fuel operation feed_dict w).2 in
  graphs w' = graphs w ∧
  default_graph w' = default_graph w ∧
  dom (heap w') = dom (heap w) ∧
  same_structure (heap w) (heap w') ∧
  ∀ l cls ins o, heap w !! l = Some (Operation cls ins o) →
    ∃ o', heap w' !! l = Some (Operation cls ins o').
Proof.
  destruct (Session_run_frame fuel operation feed_dict w) as (Hs & Hg & Hd).
  simpl. repeat split; try done.
  - symmetry. by apply same_structure_dom.
  - intros l cls ins o Hl.
    destruct (same_structure_lookup _ _ l _ Hs Hl) as (n' & Hn' & Hsk).
    destruct n'; simplify_eq/=. eauto.
Qed.

(** C6.  A second [Session.run] of the same target with the same feed,
    started from the world the first one left, ends the same way as the
    first (same value, or same exception) and leaves that world as it
    found it. *)
Theorem Session_run_idempotent fuel operation feed_dict w :
  let r1 := Session_run fuel operation feed_dict w in
  let r2 := Session_run fuel operation feed_dict r1.2 in
  r2.1 = r1.1 ∧ r2.2 = r1.2.
Proof.
  simpl. rewrite (Session_run_eq fuel operation feed_dict w).
  destruct (topology_sort fuel (heap w) operation) as [ordering|e|] eqn:Hsort.
  2,3: by rewrite Session_run_eq; simpl; rewrite Hsort.
  simpl. rewrite Session_run_eq. simpl.
  rewrite <- (topology_sort_same_structure fuel (heap w))
    by apply run_loop_same_structure.
  rewrite Hsort. simpl. rewrite run_loop_idempotent; [done|].
  by apply topology_sort_post in Hsort as (? & _).
Qed.

(** C4, as the code has it.  On a well-formed acyclic graph, a run whose
    target reaches a placeholder [p] with no entry in the feed dictionary
    never returns a value: for every fuel above some bound it raises one
    and the same exception [e] at one and the same node [x] of the order.
    The loop went through the nodes [passed] that stand before [x], which
    left the store [h'] the run ends with, and its iteration on [x] raised
    [e] in that store.  Either [x] is a placeholder
    with no feed and [e] is MissingFeedError (Python's [KeyError], from the
    lookup in the feed dictionary); or [x] is an operation that stands
    before [p] in the order, and [e] is what its forward function raised on
    the outputs that the run had computed for its inputs. *)
Theorem Session_run_unfed w operation feed_dict p :
  well_formed_from (heap w) operation → acyclic_from (heap w) operation →
  reachable (heap w) operation p → unfed (heap w) feed_dict p →
  ∃ n e ordering passed x rest h',
    (∀ fuel, n ≤ fuel →
       topology_sort fuel (heap w) operation = Done ordering ∧
       Session_run fuel operation feed_dict w = (Raise e, with_heap w h')) ∧
    ordering = passed ++ x :: rest ∧
    run_loop feed_dict passed (heap w) = (Done (), h') ∧
    node_value feed_dict x h' = Raise e ∧
    ((e = MissingFeedError ∧ unfed (heap w) feed_dict x) ∨
     (p ∈ rest ∧ forward_raises h' x e)).
Proof.
  intros Hwf Hac Hreach Hunfed.
  destruct (topology_sort_terminates (heap w) operation Hwf Hac) as [n Hn].
  destruct (Hn n (le_n n)) as [ordering Hsort].
  pose proof (topology_sort_post _ _ _ _ Hsort)
    as (Hord & Hroot & _ & Hmembers & _).
  assert (p ∈ ordering) as Hp by by eapply inputs_first_closed.
  assert (∀ l, l ∈ [] → has_output (heap w) l) as Hnil
    by by intros l ?%elem_of_nil.
  pose proof (run_loop_cases feed_dict ordering [] (heap w) Hnil Hord
                (λ x Hx, Hwf x (Hmembers x Hx))) as Hloop.
  destruct (run_loop feed_dict ordering (heap w)) as [[[]|e|] h'] eqn:Hrun;
    simpl in Hloop; [|clear Hloop|done].
  { destruct Hloop as [Hfed _]. by destruct (Hfed p Hp). }
  destruct (run_loop_Raise _ _ _ _ _ Hrun)
    as (passed & x & rest & -> & Hpassed & Hval).
  destruct (run_loop_stopped feed_dict (heap w) passed x rest h' e Hord
              (λ y Hy, Hwf y (Hmembers y Hy)) Hpassed Hval)
    as [Hfed Hcase].
  exists n, e, (passed ++ x :: rest), passed, x, rest, h'.
  split; [|split; [done|split; [done|split; [done|]]]].
  - intros fuel Hfuel. rewrite Session_run_eq.
    rewrite (topology_sort_fuel_mono n fuel _ _ _ Hfuel Hsort) by done.
    split; [done|]. by rewrite Hrun.
  - destruct Hcase as [Hkey | Hraise]; [by left | right]. split; [|done].
    apply elem_of_app in Hp as [Hp | [-> | Hp]%elem_of_cons]; [| |done].
    + by destruct (Hfed p Hp).
    + pose proof (run_loop_same_structure feed_dict passed (heap w)) as Hs.
      rewrite Hpassed in Hs. simpl in Hs.
      destruct (same_structure_unfed _ _ _ _ Hs Hunfed)
        as [(v & o & Hplace) _].
      destruct Hraise as (cls & ins & o' & inputs & Hop & _). congruence.
Qed.

(** ** Registration *)

(** C9.  After any sequence of calls made from the fresh interpreter, each
    collection of each graph lists exactly the nodes of its variant that
    were constructed while that graph was current, in construction order;
    every node of the store is in the collection of its variant of some
    graph; a node found in two collections means the same collection of the
    same graph, and the collection is the one of the node's variant; no
    collection lists a node twice. *)
Theorem registration (cs : list call) :
  let w := (exec_calls cs initial_world).1 in
  let log := (exec_calls cs initial_world).2 in
  (∀ g gr (k : variant), graphs w !! g = Some gr →
     collection k gr = constructed_under g k log) ∧
  (∀ l n, heap w !! l = Some n →
     ∃ g gr, graphs w !! g = Some gr ∧ l ∈ collection (variant_of n) gr) ∧
  (∀ g1 gr1 (k1 : variant) g2 gr2 (k2 : variant) l,
     graphs w !! g1 = Some gr1 → graphs w !! g2 = Some gr2 →
     l ∈ collection k1 gr1 → l ∈ collection k2 gr2 →
     g1 = g2 ∧ k1 = k2 ∧ variant_of <$> heap w !! l = Some k1) ∧
  (∀ g gr (k : variant), graphs w !! g = Some gr → NoDup (collection k gr)).
Proof.
  pose proof (registry_inv_exec_calls cs initial_world [] registry_inv_initial)
    as [Hnd Hvar Hgraph Hall Hcoll].
  simpl in *. split; [done|]. split; [|split].
  - intros l n Hl.
    destruct (proj1 (list_elem_of_fmap _ _ _) (Hall l (mk_is_Some _ _ Hl)))
      as (e & -> & He).
    destruct (proj1 (elem_of_dom _ _) (Hgraph e He)) as [gr Hgr].
    exists (ev_graph e), gr. split; [done|].
    rewrite (Hcoll _ _ _ Hgr). apply elem_of_constructed_under.
    exists e. repeat split; try done.
    specialize (Hvar e He). rewrite Hl in Hvar. by simplify_eq/=.
  - intros g1 gr1 k1 g2 gr2 k2 l Hgr1 Hgr2 Hl1 Hl2.
    rewrite (Hcoll _ _ _ Hgr1) in Hl1. rewrite (Hcoll _ _ _ Hgr2) in Hl2.
    apply elem_of_constructed_under in Hl1 as (e1 & He1 & Hn1 & Hg1 & Hk1).
    apply elem_of_constructed_under in Hl2 as (e2 & He2 & Hn2 & Hg2 & Hk2).
    assert (e1 = e2) as <-.
    { eapply event_by_node; eauto. congruence. }
    repeat split; try congruence.
    rewrite <- Hn1, <- Hk1. by apply Hvar.
  - intros g gr k Hgr. rewrite (Hcoll _ _ _ Hgr).
    by apply NoDup_constructed_under.
Qed.

End Claims.

(** * The scenarios, evaluated *)

(** C1.  With [a = Constant(3)], [b = Variable(4)] and [op = multiply(a, b)]
    the first run returns 12 and, after [b.value = 10], the second returns
    30, for every fuel of at least 2; and whatever output an earlier run
    left on a variable, the value an iteration assigns to it is the value
    it stores now. *)
Theorem multiply_scenario_result (true_divide : Z → Z → result Z) (k : nat) :
  (multiply_scenario true_divide (2 + k) initial_world).1 =
    Done (PyVal 12%Z, PyVal 30%Z) ∧
  ∀ (h : gmap loc Node) (feed_dict : gmap loc (pyobj Z)) (b : loc)
    (value : pyobj Z) (stale : option (pyobj Z)),
    node_value (B := python_int true_divide) feed_dict b
      (<[b := Variable_ value stale]> h) = Done value.
Proof.
  split; [by vm_compute|].
  intros h feed_dict b value stale. unfold node_value.
  by rewrite lookup_insert_eq.
Qed.

(** Before any graph is current, a construction raises
    UninitializedContext (Python's [NameError]) and registers nothing. *)
Example construction_without_graph (value : pyobj Z) :
  Constant_init value initial_world = (Raise UninitializedContext, initial_world) ∧
  Placeholder_init (Value := Z) initial_world =
    (Raise UninitializedContext, initial_world).
Proof. done. Qed.

(** The scenario of the specification with a placeholder: fed with 5 the
    run returns 7, unfed it raises MissingFeedError. *)
Example placeholder_scenario_result (true_divide : Z → Z → result Z) (k : nat) :
  (placeholder_scenario true_divide (2 + k) (Some (PyVal 5%Z))
     initial_world).1 = Done (PyVal 7%Z) ∧
  (placeholder_scenario true_divide (2 + k) None initial_world).1 =
    Raise MissingFeedError.
Proof. split; by vm_compute. Qed.

Lemma Constant_immutable_witness :
  let _ : Backend Z := python_int (λ _ _, Err TypeError) in
  let w' := (Constant_init (PyVal 5%Z) current_graph_world).2 in
  let w'' := (exec_calls [CallSetConstant 0 (PyVal 7%Z); CallRun 1 0 ∅] w').1 in
  Constant_value w'' 0 = Done (PyVal 5%Z) ∧
  ∀ v', Constant_value_setter 0 v' w'' = (Raise ImmutableValueError, w'') ∧
        Constant_value (Constant_value_setter 0 v' w'').2 0 =
          Done (PyVal 5%Z).
Proof.
  apply (Constant_immutable (B := python_int (λ _ _, Err TypeError))
           current_graph_world).
  by vm_compute.
Defined.

(** The base forward called with no input: it returns [None], as a run of
    [Operation([])] does. *)
Lemma Operation_forward_base_counterexample :
  forward (B := no_numeric) Operation_base [] = Done PyNone ∧
  (base_operation_program 1 initial_world).1 = Done PyNone.
Proof. split; by vm_compute. Qed.

Lemma run_stored_value_witness :
  topology_sort 1 (heap diamond_world) 0 = Done [0] ∧
  (Session_run (B := no_numeric) 1 0 ∅ diamond_world).1 = Done PyNone.
Proof.
  apply (run_stored_value (B := no_numeric) 0 diamond_world 0 PyNone None ∅).
  left. by vm_compute.
Defined.

Lemma diamond_inputs_older : inputs_older (heap diamond_world).
Proof. apply (bool_decide_unpack _). by vm_compute. Qed.

Lemma topology_sort_order_witness :
  ∃ n ordering,
    (∀ fuel, n ≤ fuel →
       topology_sort fuel (heap diamond_world) 3 = Done ordering) ∧
    inputs_first (heap diamond_world) ordering ∧
    last ordering = Some 3 ∧
    NoDup ordering.
Proof.
  apply (topology_sort_order (heap diamond_world) 3).
  - apply inputs_older_well_formed; [apply diamond_inputs_older|].
    eexists. by vm_compute.
  - apply inputs_older_acyclic, diamond_inputs_older.
Defined.


Lemma missing_feed_inputs_older : inputs_older (heap missing_feed_world).
Proof. apply (bool_decide_unpack _). by vm_compute. Qed.

Lemma Session_run_unfed_witness :
  ∃ n e ordering passed x rest h',
    (∀ fuel, n ≤ fuel →
       topology_sort fuel (heap missing_feed_world) 2 = Done ordering ∧
       Session_run (B := no_numeric) fuel 2 ∅ missing_feed_world =
       (Raise e, with_heap missing_feed_world h')) ∧
    ordering = passed ++ x :: rest ∧
    run_loop (B := no_numeric) ∅ passed (heap missing_feed_world) =
    (Done (), h') ∧
    node_value (B := no_numeric) ∅ x h' = Raise e ∧
    ((e = MissingFeedError ∧ unfed (heap missing_feed_world) ∅ x) ∨
     (0 ∈ rest ∧ forward_raises (B := no_numeric) h' x e)).
Proof.
  apply (Session_run_unfed (B := no_numeric) missing_feed_world 2 ∅ 0).
  - apply inputs_older_well_formed; [apply missing_feed_inputs_older|].
    eexists. by vm_compute.
  - apply inputs_older_acyclic, missing_feed_inputs_older.
  - apply rtc_once. unfold edge. vm_compute. by left.
  - split; [|done]. eexists _, _. by vm_compute.
Defined.

(** In the world of [unfed_program] the placeholder 2 is reachable from the
    target 3 and has no feed, and the run raises the [TypeError] of
    [None + None] in node 1, which comes before the placeholder in the
    order. *)
Lemma Session_run_unfed_counterexample :
  reachable (heap unfed_world) 3 2 ∧
  unfed (heap unfed_world) ∅ 2 ∧
  topology_sort 3 (heap unfed_world) 3 = Done [0; 1; 2; 3] ∧
  ∀ k, (Session_run (B := no_numeric) (3 + k) 3 ∅ unfed_world).1 =
       Raise TypeError.
Proof.
  split; [|split; [|split]].
  - apply rtc_once. unfold edge. vm_compute. right. by left.
  - split; [|done]. eexists _, _. by vm_compute.
  - by vm_compute.
  - intros k. by vm_compute.
Qed.

(** A reachable cycle: the recursion never comes back. *)
Example cyclic_heap_diverges fuel : topology_sort fuel cyclic_heap 0 = OutOfFuel.
Proof.
  apply (topology_sort_cycle fuel cyclic_heap 0 0).
  - intros x Hx.
    assert (x = 0 ∨ x = 1) as [-> | ->]; [|done..].
    revert x Hx. apply (rtc_ind_r (λ x, x = 0 ∨ x = 1)); [by left|].
    intros y z _ Hyz IH. unfold edge in Hyz.
    destruct IH as [-> | ->]; vm_compute in Hyz;
      apply elem_of_cons in Hyz as [->|Hyz]; auto;
      apply elem_of_cons in Hyz as [->|Hyz]; auto;
      by apply elem_of_nil in Hyz.
  - apply rtc_refl.
  - eapply tc_l; [|apply tc_once]; unfold edge; vm_compute; by left.
Qed.

(** * Further properties of the traversal *)

Section TraversalMore.
Context {Value : Type}.
Implicit Types (h : gmap loc (@Node Value)) (x y node root : loc).
Implicit Types (st : list loc * gset loc).

Global Instance inputs_before_dec h : Decision (inputs_before h).
Proof.
  apply map_Forall_dec. intros x [cls [ins|] o|v o|v o|v o]; apply _.
Defined.

Lemma inputs_before_edge h x y :
  inputs_before h → edge h x y → y < x ∧ is_Some (h !! y).
Proof.
  intros Hold (cls & ins & o & Hx & Hy)%edge_operation.
  specialize (Hold x _ Hx). simpl in Hold.
  by apply (proj1 (Forall_forall _ _) Hold y).
Qed.

Lemma inputs_before_reachable h root x :
  inputs_before h → reachable h root x → x ≤ root.
Proof.
  intros Hold. induction 1 as [x | x y z Hxy _ IH]; [done|].
  apply (inputs_before_edge h) in Hxy as [Hlt _]; [lia | done].
Qed.

Lemma inputs_before_acyclic h root : inputs_before h → acyclic_from h root.
Proof.
  intros Hold x _ Hcyc.
  assert (∀ a b, tc (edge h) a b → b < a) as Hlt.
  { induction 1 as [a b Hab | a c b Hac _ IH].
    - by apply (inputs_before_edge h).
    - apply (inputs_before_edge h) in Hac as [Hlt _]; [lia | done]. }
  specialize (Hlt x x Hcyc). lia.
Qed.

Lemma inputs_before_closed h root :
  inputs_before h → is_Some (h !! root) → closed_from h root.
Proof.
  intros Hold Hroot x Hx. induction Hx as [x | x y z Hxy _ IH]; [done|].
  apply IH. by apply (inputs_before_edge h) in Hxy as [_ ?].
Qed.

Lemma inputs_older_before h : inputs_older h → inputs_before h.
Proof.
  intros Hold x n Hx. specialize (Hold x n Hx). simpl in *.
  by destruct n as [cls [ins|] o|v o|v o|v o].
Qed.

(** ** The members of a returned ordering are proper nodes *)

Lemma visit_inputs_proper fuel h ins st st' :
  (∀ x t t', recursive_helper fuel h x t = Done t' →
     (∀ y, y ∈ t.1 → proper_node h y) → ∀ y, y ∈ t'.1 → proper_node h y) →
  for_in (visit_input fuel h) ins st = Done st' →
  (∀ y, y ∈ st.1 → proper_node h y) → ∀ y, y ∈ st'.1 → proper_node h y.
Proof.
  intros IH. revert st. induction ins as [|i ins IHins]; intros st Hrun Hst;
    simpl in Hrun; [by simplify_eq|].
  destruct (visit_input fuel h i st) as [t| |] eqn:Hi; try done.
  apply (IHins t Hrun). unfold visit_input in Hi.
  destruct (decide (i ∈ st.2)); [by simplify_eq|]. by eapply IH.
Qed.

Lemma recursive_helper_proper fuel h node st st' :
  recursive_helper fuel h node st = Done st' →
  (∀ y, y ∈ st.1 → proper_node h y) → ∀ y, y ∈ st'.1 → proper_node h y.
Proof.
  revert node st st'. induction fuel as [|fuel IH]; intros node st st' Hrun Hst;
    [done|].
  rewrite recursive_helper_unfold in Hrun.
  destruct (h !! node) as [[cls [ins|] o|v o|v o|v o]|] eqn:Hnode; try done.
  - destruct (for_in (visit_input fuel h) ins st) as [[ord vis]| |] eqn:Hloop;
      try done.
    injection Hrun as <-. simpl.
    intros y [Hy|Hy%list_elem_of_singleton]%elem_of_app.
    + by apply (visit_inputs_proper fuel h ins st (ord, vis) IH Hloop Hst).
    + subst. unfold proper_node. by rewrite Hnode.
  - destruct st as [ord vis]. injection Hrun as <-. simpl.
    intros y [Hy|Hy%list_elem_of_singleton]%elem_of_app; [by apply Hst|].
    subst. unfold proper_node. by rewrite Hnode.
  - destruct st as [ord vis]. injection Hrun as <-. simpl.
    intros y [Hy|Hy%list_elem_of_singleton]%elem_of_app; [by apply Hst|].
    subst. unfold proper_node. by rewrite Hnode.
  - destruct st as [ord vis]. injection Hrun as <-. simpl.
    intros y [Hy|Hy%list_elem_of_singleton]%elem_of_app; [by apply Hst|].
    subst. unfold proper_node. by rewrite Hnode.
Qed.

Lemma topology_sort_well_formed fuel h root ordering :
  topology_sort fuel h root = Done ordering → well_formed_from h root.
Proof.
  intros Hsort x Hx.
  pose proof (topology_sort_post _ _ _ _ Hsort) as (Hord & Hroot & _).
  apply topology_sort_Done in Hsort as [vis Hrun].
  apply (recursive_helper_proper _ _ _ _ _ Hrun).
  - by intros y ?%elem_of_nil.
  - simpl. by eapply inputs_first_closed.
Qed.

(** X1.  Whenever [topology_sort] returns, with no assumption on the store:
    the ordering puts every input strictly before the operation using it,
    ends with the root, repeats no node and holds exactly the nodes
    reachable from the root; and the part of the store reachable from the
    root is then acyclic and well formed. *)
Theorem topology_sort_sound fuel h root ordering :
  topology_sort fuel h root = Done ordering →
  inputs_first h ordering ∧
  last ordering = Some root ∧
  NoDup ordering ∧
  (∀ y, y ∈ ordering ↔ reachable h root y) ∧
  acyclic_from h root ∧
  well_formed_from h root.
Proof.
  intros Hsort.
  pose proof (topology_sort_post _ _ _ _ Hsort)
    as (Hord & Hroot & Hlast & Hmembers & Hnd).
  repeat split; try done.
  - apply Hmembers.
  - intros Hy. by eapply inputs_first_closed.
  - by eapply inputs_first_acyclic.
  - by eapply topology_sort_well_formed.
Qed.

(** ** Operations constructed with the default [input_nodes] *)

Lemma descends_along_path h root (k : nat) :
  closed_from h root → acyclic_from h root →
  ∀ path x,
    NoDup path →
    (∀ p, p ∈ path → p ∈ dom h ∧ tc (edge h) p x) →
    reachable h root x →
    size (dom h) ≤ k + length path →
    descends h x.
Proof.
  intros Hcl Hac. induction k as [|k IH]; intros path x Hnd Hpath Hx Hsize.
  - exfalso.
    assert (x ∉ path) as Hfresh.
    { intros Hin. apply (Hac x Hx). by apply Hpath. }
    assert (length (x :: path) ≤ size (dom h)) as Hlen.
    { apply path_length_bound.
      - by constructor.
      - intros p [->|Hp]%elem_of_cons.
        + by apply elem_of_dom, Hcl.
        + by apply Hpath. }
    simpl in Hlen. lia.
  - constructor; [by apply Hcl|].
    intros y Hxy.
    assert (x ∉ path) as Hfresh.
    { intros Hin. apply (Hac x Hx). by apply Hpath. }
    apply (IH (x :: path)).
    + by constructor.
    + intros p [->|Hp]%elem_of_cons.
      * split; [by apply elem_of_dom, Hcl | by apply tc_once].
      * destruct (Hpath p Hp) as [Hdom Hpx]. split; [done|].
        eapply tc_r; eauto.
    + eapply rtc_r; eauto.
    + simpl. lia.
Qed.

Lemma acyclic_descends h root :
  closed_from h root → acyclic_from h root → descends h root.
Proof.
  intros Hcl Hac.
  apply (descends_along_path h root (size (dom h)) Hcl Hac []).
  - constructor.
  - intros p Hp. by apply elem_of_nil in Hp.
  - apply rtc_refl.
  - lia.
Qed.

Lemma visit_inputs_come_back fuel h ins st :
  (∀ i, i ∈ ins → ∀ t, comes_back (recursive_helper fuel h i t)) →
  comes_back (for_in (visit_input fuel h) ins st).
Proof.
  revert st. induction ins as [|i ins IH]; intros st Hall; simpl.
  { left. eauto. }
  assert (comes_back (visit_input fuel h i st)) as [[t ->] | ->].
  { unfold visit_input. destruct (decide (i ∈ st.2)); [left; eauto|].
    apply Hall. by left. }
  - apply IH. intros j Hj. apply Hall. by right.
  - by right.
Qed.

Lemma recursive_helper_comes_back h node :
  descends h node →
  ∃ n, ∀ fuel, n ≤ fuel → ∀ st, comes_back (recursive_helper fuel h node st).
Proof.
  induction 1 as [x [nx Hx] _ IH].
  destruct (common_fuel
    (λ i fuel, ∀ st, comes_back (recursive_helper fuel h i st))
    (inputs_of h x)) as [n Hn].
  { intros i Hi. by apply IH. }
  exists (S n). intros [|fuel] Hfuel st; [lia|].
  rewrite recursive_helper_unfold. unfold inputs_of in Hn. rewrite Hx in *.
  destruct nx as [cls [ins|] o|v o|v o|v o];
    try by (destruct st; left; eauto).
  - destruct (visit_inputs_come_back fuel h ins st) as [[[ord vis] ->] | ->].
    + intros i Hi t. apply Hn; [done | lia].
    + left. eauto.
    + by right.
  - by right.
Qed.

Lemma topology_sort_default_inputs_raise h root x cls o :
  closed_from h root → acyclic_from h root →
  reachable h root x → h !! x = Some (Operation cls None o) →
  ∃ n, ∀ fuel, n ≤ fuel → topology_sort fuel h root = Raise TypeError.
Proof.
  intros Hcl Hac Hx Hnone.
  destruct (recursive_helper_comes_back h root) as [n Hn];
    [by apply acyclic_descends|].
  exists n. intros fuel Hfuel.
  destruct (topology_sort fuel h root) as [ordering|e|] eqn:Hsort.
  - apply topology_sort_well_formed in Hsort. specialize (Hsort x Hx).
    unfold proper_node in Hsort. by rewrite Hnone in Hsort.
  - unfold topology_sort in Hsort.
    destruct (Hn fuel Hfuel ([], ∅)) as [[[ord vis] Hr] | Hr];
      rewrite Hr in Hsort; by simplify_eq.
  - unfold topology_sort in Hsort.
    destruct (Hn fuel Hfuel ([], ∅)) as [[[ord vis] Hr] | Hr];
      rewrite Hr in Hsort; by simplify_eq.
Qed.

End TraversalMore.

(** * Further properties of runs *)

Section RunMore.
Context {Value : Type} `{B : Backend Value}.
Implicit Types (h : gmap loc (@Node Value)) (x y node root : loc).
Implicit Types (w : world (Value := Value)).
Implicit Types (feed_dict : gmap loc (pyobj Value)).

(** X2.  When the graph below the target is acyclic and some reachable
    operation was constructed with the default [input_nodes] (which is
    [None], not an empty list), [topology_sort] raises [TypeError] for every
    fuel above some bound, and so does [Session.run], which leaves the world
    exactly as it was. *)
Theorem Session_run_default_inputs w operation feed_dict x cls o :
  closed_from (heap w) operation → acyclic_from (heap w) operation →
  reachable (heap w) operation x →
  heap w !! x = Some (Operation cls None o) →
  ∃ n, ∀ fuel, n ≤ fuel →
    topology_sort fuel (heap w) operation = Raise TypeError ∧
    Session_run fuel operation feed_dict w = (Raise TypeError, w).
Proof.
  intros Hcl Hac Hx Hnone.
  destruct (topology_sort_default_inputs_raise _ _ _ _ _ Hcl Hac Hx Hnone)
    as [n Hn].
  exists n. intros fuel Hfuel. specialize (Hn fuel Hfuel).
  split; [done|]. unfold Session_run. by rewrite Hn.
Qed.

(** X4.  A run writes nothing on a node that is not reachable from its
    target: the node is afterwards exactly as it was, output included. *)
Theorem Session_run_unreachable fuel operation feed_dict w l :
  ¬ reachable (heap w) operation l →
  heap (Session_run fuel operation feed_dict w).2 !! l = heap w !! l.
Proof.
  intros Hl. rewrite Session_run_eq.
  destruct (topology_sort fuel (heap w) operation) as [ordering|e|] eqn:Hsort;
    [|done..].
  simpl. apply run_loop_frame. intros Hin. apply Hl.
  by apply (topology_sort_post _ _ _ _ Hsort).
Qed.

Lemma node_value_feed h x feed1 feed2 :
  (∀ v o, h !! x = Some (Placeholder v o) → feed1 !! x = feed2 !! x) →
  node_value feed1 x h = node_value feed2 x h.
Proof.
  intros Hfeed. unfold node_value.
  destruct (h !! x) as [[cls [ins|] o|v o|v o|v o]|]; try done.
  by rewrite (Hfeed v o).
Qed.

Lemma run_loop_feed feed1 feed2 ordering h :
  (∀ x v o, x ∈ ordering → h !! x = Some (Placeholder v o) →
     feed1 !! x = feed2 !! x) →
  run_loop feed1 ordering h = run_loop feed2 ordering h.
Proof.
  revert h. induction ordering as [|x ordering IH]; intros h Hfeed; simpl;
    [done|].
  unfold run_node. rewrite (node_value_feed h x feed1 feed2).
  2: { intros v o. apply Hfeed. by left. }
  destruct (node_value feed2 x h) as [u|e|]; try done.
  apply IH. intros y v o Hy Hlook.
  pose proof (same_structure_set_output h x u) as Hs.
  symmetry in Hs.
  destruct (same_structure_lookup _ _ y _ Hs Hlook) as (n & Hn & Hsk).
  destruct n; simplify_eq/=. eapply Hfeed; [by right | done].
Qed.

(** X5.  A run depends on the feed dictionary only through the entries of
    the placeholders its target reaches: two dictionaries that agree on
    them give the same outcome and the same world, whatever else they
    hold. *)
Theorem Session_run_feed fuel operation feed1 feed2 w :
  (∀ x v o, reachable (heap w) operation x →
     heap w !! x = Some (Placeholder v o) → feed1 !! x = feed2 !! x) →
  Session_run fuel operation feed1 w = Session_run fuel operation feed2 w.
Proof.
  intros Hfeed. rewrite !Session_run_eq.
  destruct (topology_sort fuel (heap w) operation) as [ordering|e|] eqn:Hsort;
    [|done..].
  rewrite (run_loop_feed feed1 feed2 ordering (heap w)); [done|].
  intros x v o Hx. apply Hfeed.
  by apply (topology_sort_post _ _ _ _ Hsort).
Qed.

(** X6.  A run whose target is itself a placeholder returns the entry the
    feed dictionary holds for it, and raises [KeyError] when there is
    none. *)
Theorem run_placeholder fuel w p v o feed_dict :
  heap w !! p = Some (Placeholder v o) →
  (Session_run (S fuel) p feed_dict w).1 =
  match feed_dict !! p with
  | Some u => Done u
  | None => Raise KeyError
  end.
Proof.
  intros Hp.
  assert (topology_sort (S fuel) (heap w) p = Done [p]) as Hsort.
  { unfold topology_sort. rewrite recursive_helper_unfold. by rewrite Hp. }
  unfold Session_run. rewrite Hsort. simpl.
  unfold run_node, node_value. rewrite Hp.
  destruct (feed_dict !! p) as [u|]; simpl; [|done].
  by rewrite get_output_set_output.
Qed.

(** ** The outputs a run leaves *)

Lemma get_outputs_set_output_notin h x v ins :
  x ∉ ins → get_outputs (set_output x v h) ins = get_outputs h ins.
Proof.
  intros Hx. apply get_outputs_agree. intros y Hy.
  apply lookup_set_output_ne. by intros ->.
Qed.

Lemma output_consistent_frame feed_dict h x v y :
  x ≠ y → x ∉ inputs_of h y →
  output_consistent feed_dict h y →
  output_consistent feed_dict (set_output x v h) y.
Proof.
  unfold output_consistent, inputs_of. intros Hne Hin.
  rewrite lookup_set_output_ne by done.
  destruct (h !! y) as [[cls [ins|] o|u o|u o|u o]|]; try done.
  by rewrite get_outputs_set_output_notin.
Qed.

Lemma output_consistent_node feed_dict h x v :
  node_value feed_dict x h = Done v → x ∉ inputs_of h x →
  output_consistent feed_dict (set_output x v h) x.
Proof.
  unfold output_consistent, node_value, inputs_of.
  rewrite lookup_set_output. destruct (decide (x = x)); [|done].
  destruct (h !! x) as [[cls [ins|] o|u o|u o|u o]|]; simpl; try done.
  - intros Hval Hin. rewrite get_outputs_set_output_notin by done.
    destruct (get_outputs h ins) as [inputs| |]; try done. eauto.
  - by destruct (feed_dict !! x); intros [= ->].
  - by intros [= ->].
  - by intros [= ->].
Qed.

Lemma later_not_input h (l : list loc) i k x y :
  NoDup l → inputs_first h l → l !! i = Some y → l !! k = Some x → i ≤ k →
  x ∉ inputs_of h y.
Proof.
  intros Hnd Hord Hi Hk Hle Hin.
  destruct (Hord i y x Hi Hin) as (j & Hj & Hjx).
  pose proof (NoDup_lookup l j k x Hnd Hjx Hk). lia.
Qed.

Lemma run_loop_consistent feed_dict ordering :
  ∀ pre h,
    NoDup (pre ++ ordering) → inputs_first h (pre ++ ordering) →
    (∀ y, y ∈ pre → output_consistent feed_dict h y) →
    (run_loop feed_dict ordering h).1 = Done () →
    ∀ y, y ∈ pre ++ ordering →
      output_consistent feed_dict (run_loop feed_dict ordering h).2 y.
Proof.
  induction ordering as [|x ordering IH]; intros pre h Hnd Hord Hpre Hdone.
  { simpl. intros y Hy. rewrite app_nil_r in Hy. auto. }
  simpl in *. unfold run_node in *.
  destruct (node_value feed_dict x h) as [v|e|] eqn:Hv; try done.
  assert ((pre ++ x :: ordering) !! length pre = Some x) as Hx.
  { by rewrite lookup_app_r, Nat.sub_diag by lia. }
  intros y Hy.
  apply (IH (pre ++ [x]) (set_output x v h)); try done.
  - by rewrite <- app_assoc.
  - rewrite <- app_assoc. eapply same_structure_inputs_first; [|done].
    apply same_structure_set_output.
  - intros z [Hz|Hz%list_elem_of_singleton]%elem_of_app.
    + apply list_elem_of_lookup in Hz as [i Hi].
      pose proof (lookup_lt_Some _ _ _ Hi) as Hlt.
      assert ((pre ++ x :: ordering) !! i = Some z) as Hi'
        by by apply lookup_app_l_Some.
      apply output_consistent_frame; [| |by apply Hpre; eapply list_elem_of_lookup_2].
      * intros ->. pose proof (NoDup_lookup _ _ _ _ Hnd Hi' Hx). lia.
      * eapply (later_not_input h _ i (length pre)); eauto. lia.
    + subst z. apply output_consistent_node; [done|].
      by eapply (later_not_input h _ (length pre) (length pre)).
  - by rewrite <- app_assoc.
Qed.

(** X3.  After a run that returns, the outputs cached on the nodes are a
    solution of the dataflow equations: the target's output is the value
    returned, and on every node reachable from the target the output is
    the fed value (placeholder), the stored value (constant, variable), or
    the forward of the node applied to the outputs cached on its inputs
    (operation). *)
Theorem Session_run_consistent fuel operation feed_dict w v w' :
  Session_run fuel operation feed_dict w = (Done v, w') →
  get_output (heap w') operation = Done v ∧
  ∀ x, reachable (heap w) operation x →
    output_consistent feed_dict (heap w') x.
Proof.
  rewrite Session_run_eq.
  destruct (topology_sort fuel (heap w) operation) as [ordering|e|] eqn:Hsort;
    [|done..].
  pose proof (topology_sort_post _ _ _ _ Hsort)
    as (Hord & Hroot & _ & _ & Hnd).
  pose proof (run_loop_consistent feed_dict ordering [] (heap w) Hnd Hord)
    as Hcons.
  simpl in *.
  destruct (run_loop feed_dict ordering (heap w)) as [[[]|e|] h'];
    simpl in *; try done.
  intros [= Hget <-]. split; [done|]. intros x Hx.
  apply Hcons; [by intros y ?%elem_of_nil | done |].
  by eapply inputs_first_closed.
Qed.

(** ** A binary operation over two stored values *)

Lemma run_loop_cons feed_dict x rest h :
  run_loop feed_dict (x :: rest) h =
  match node_value feed_dict x h with
  | Done v => run_loop feed_dict rest (set_output x v h)
  | Raise e => (Raise e, h)
  | OutOfFuel => (OutOfFuel, h)
  end.
Proof. simpl. unfold run_node. by destruct (node_value feed_dict x h). Qed.

Lemma stores_is_Some h l v : stores h l v → is_Some (h !! l).
Proof. intros [[o ->] | [o ->]]; eauto. Qed.

Lemma stores_not_operation h l v op cls ins o :
  stores h l v → h !! op = Some (Operation cls ins o) → op ≠ l.
Proof. intros [[o' Hl] | [o' Hl]] Hop ->; congruence. Qed.

Lemma stores_unique h l v v' : stores h l v → stores h l v' → v = v'.
Proof. intros [[o Hl] | [o Hl]] [[o' Hl'] | [o' Hl']]; congruence. Qed.

Lemma stores_set_output h x u l v :
  stores h l v → stores (set_output x u h) l v.
Proof.
  unfold stores. rewrite lookup_set_output.
  destruct (decide (x = l)) as [->|]; [|done].
  intros [[o ->] | [o ->]]; simpl; eauto.
Qed.

Lemma node_value_stores feed_dict h l v :
  stores h l v → node_value feed_dict l h = Done v.
Proof. unfold node_value. by intros [[o ->] | [o ->]]. Qed.

Lemma recursive_helper_stores fuel h l v (st : list loc * gset loc) :
  stores h l v →
  recursive_helper (S fuel) h l st = Done (st.1 ++ [l], {[l]} ∪ st.2).
Proof.
  intros Hl. rewrite recursive_helper_unfold. destruct st as [ord vis].
  by destruct Hl as [[o ->] | [o ->]].
Qed.

Lemma visit_input_stores fuel h l v (st : list loc * gset loc) :
  stores h l v →
  visit_input (S fuel) h l st =
  Done (if decide (l ∈ st.2) then st else (st.1 ++ [l], {[l]} ∪ st.2)).
Proof.
  intros Hl. unfold visit_input. destruct (decide (l ∈ st.2)); [done|].
  by apply recursive_helper_stores with v.
Qed.

Lemma topology_sort_binary k h op cls a b o va vb :
  h !! op = Some (Operation cls (Some [a; b]) o) →
  stores h a va → stores h b vb →
  topology_sort (2 + k) h op =
  Done (if decide (a = b) then [a; op] else [a; b; op]).
Proof.
  intros Hop Ha Hb. unfold topology_sort.
  change (2 + k) with (S (S k)).
  rewrite recursive_helper_unfold, Hop.
  change (for_in (visit_input (S k) h) [a; b] ([], ∅)) with
    (match visit_input (S k) h a ([], ∅) with
     | Done s' =>
         match visit_input (S k) h b s' with
         | Done s'' => Done s''
         | Raise e => Raise e
         | OutOfFuel => OutOfFuel
         end
     | Raise e => Raise e
     | OutOfFuel => OutOfFuel
     end).
  rewrite (visit_input_stores k h a va) by done.
  rewrite decide_False by apply not_elem_of_empty.
  rewrite (visit_input_stores k h b vb) by done.
  cbn [fst snd app].
  destruct (decide (a = b)) as [->|Hne].
  - rewrite decide_True; [done|]. apply elem_of_union_l.
    by apply elem_of_singleton.
  - rewrite decide_False; [done|].
    intros [Hin|Hin]%elem_of_union.
    + apply elem_of_singleton in Hin. congruence.
    + by apply not_elem_of_empty in Hin.
Qed.

Lemma Session_run_result fuel operation feed_dict w ordering :
  topology_sort fuel (heap w) operation = Done ordering →
  (Session_run fuel operation feed_dict w).1 =
  match (run_loop feed_dict ordering (heap w)).1 with
  | Done _ => get_output (run_loop feed_dict ordering (heap w)).2 operation
  | Raise e => Raise e
  | OutOfFuel => OutOfFuel
  end.
Proof. intros Hsort. by rewrite Session_run_eq, Hsort. Qed.

Lemma run_loop_nil feed_dict h : run_loop feed_dict [] h = (Done (), h).
Proof. done. Qed.

(** X7.  A run of a binary operation whose two inputs are constants or
    variables, for every fuel of at least 2: its outcome is exactly the
    forward of the class of the operation applied to the two stored values,
    be it a value or the exception forward raises; the two inputs may be
    one and the same node. *)
Theorem binary_operation_run k w op cls a b o va vb feed_dict :
  heap w !! op = Some (Operation cls (Some [a; b]) o) →
  stores (heap w) a va → stores (heap w) b vb →
  (Session_run (2 + k) op feed_dict w).1 = forward cls [va; vb].
Proof.
  intros Hop Ha Hb.
  rewrite (Session_run_result _ _ _ _ _
             (topology_sort_binary k (heap w) op cls a b o va vb Hop Ha Hb)).
  pose proof (stores_not_operation _ _ _ _ _ _ _ Ha Hop) as Hopa.
  pose proof (stores_not_operation _ _ _ _ _ _ _ Hb Hop) as Hopb.
  set (h1 := set_output a va (heap w)).
  assert (get_output h1 a = Done va) as Hga.
  { apply get_output_set_output. by eapply stores_is_Some. }
  assert (h1 !! op = Some (Operation cls (Some [a; b]) o)) as Hop1.
  { unfold h1. by rewrite lookup_set_output_ne. }
  destruct (decide (a = b)) as [<-|Hne].
  - rewrite (stores_unique _ _ _ _ Hb Ha) in *.
    rewrite run_loop_cons, (node_value_stores _ _ a va) by done.
    cbv beta iota. fold h1. rewrite run_loop_cons.
    unfold node_value. rewrite Hop1. cbn [get_outputs]. rewrite Hga.
    destruct (forward cls [va; va]) as [v|e|] eqn:Hfwd;
      rewrite ?run_loop_nil; cbn [fst snd]; try done.
    apply get_output_set_output. eauto.
  - set (h2 := set_output b vb h1).
    assert (get_output h2 b = Done vb) as Hgb.
    { apply get_output_set_output. unfold h1.
      eapply stores_is_Some, stores_set_output. done. }
    assert (get_output h2 a = Done va) as Hga2.
    { unfold h2, get_output. rewrite lookup_set_output_ne by done.
      apply Hga. }
    assert (h2 !! op = Some (Operation cls (Some [a; b]) o)) as Hop2.
    { unfold h2. by rewrite lookup_set_output_ne. }
    rewrite run_loop_cons, (node_value_stores _ _ a va) by done.
    cbv beta iota. fold h1.
    rewrite run_loop_cons, (node_value_stores _ h1 b vb)
      by by apply stores_set_output.
    cbv beta iota. fold h2. rewrite run_loop_cons.
    unfold node_value. rewrite Hop2. cbn [get_outputs].
    rewrite Hga2, Hgb.
    destruct (forward cls [va; vb]) as [v|e|] eqn:Hfwd;
      rewrite ?run_loop_nil; cbn [fst snd]; try done.
    apply get_output_set_output. eauto.
Qed.

(** ** Assignment to a variable *)

Lemma Session_run_stores fuel w n v feed_dict :
  stores (heap w) n v → (Session_run (S fuel) n feed_dict w).1 = Done v.
Proof.
  intros Hn.
  assert (topology_sort (S fuel) (heap w) n = Done [n]) as Hsort.
  { unfold topology_sort.
    by rewrite (recursive_helper_stores fuel (heap w) n v). }
  rewrite (Session_run_result _ _ _ _ _ Hsort).
  rewrite run_loop_cons, (node_value_stores _ _ n v) by done.
  cbv beta iota. rewrite run_loop_nil. cbn [fst snd].
  apply get_output_set_output. by eapply stores_is_Some.
Qed.

(** X8.  The assignment [b.value = value] on a variable succeeds; the
    variable then reads [value], a run whose target is the variable
    returns [value] whatever
    output an earlier run cached on it, and no other node, no graph and not
    the current-graph binding is changed. *)
Theorem Variable_assignment fuel w b v o (value : pyobj Value) feed_dict :
  heap w !! b = Some (Variable_ v o) →
  let w' := (Variable_set_value b value w).2 in
  (Variable_set_value b value w).1 = Done () ∧
  Variable_value w' b = Done value ∧
  (Session_run (S fuel) b feed_dict w').1 = Done value ∧
  (∀ l, l ≠ b → heap w' !! l = heap w !! l) ∧
  graphs w' = graphs w ∧
  default_graph w' = default_graph w.
Proof.
  intros Hb. unfold Variable_set_value, Variable_value. rewrite Hb. simpl.
  rewrite lookup_insert_eq. repeat split; try done.
  - apply Session_run_stores. right. exists o. simpl.
    by rewrite lookup_insert_eq.
  - intros l Hl. by rewrite lookup_insert_ne.
Qed.

(** ** The kernels *)

(** X9.  A forward that returns a value was called as its class expects:
    the base class with no input, returning [None]; a kernel with exactly
    two inputs of which the first is a backend value (and the second too,
    except for [matmul], whose [dot] is handed the second input as it
    is), returning a backend value.  In every other case forward
    raises. *)
Theorem forward_returns cls (inputs : list (pyobj Value)) v :
  forward cls inputs = Done v →
  (cls = Operation_base ∧ inputs = [] ∧ v = PyNone) ∨
  (cls ≠ Operation_base ∧
   ∃ a b c, inputs = [PyVal a; b] ∧ v = PyVal c ∧
            (cls ≠ matmul → ∃ b', b = PyVal b')).
Proof.
  destruct cls, inputs as [|[|a] [|[|b] [|c inputs]]]; simpl; try done;
    try (intros [= <-]; by left).
  all: unfold of_result; intros Hfwd; right; split; [done|].
  all: match type of Hfwd with
       | match ?r with _ => _ end = _ =>
           destruct r as [z|e] eqn:Hr; [|done]
       end.
  all: injection Hfwd as <-; eexists _, _, _; split; [done|]; split; [done|];
         try done; eauto.
Qed.

End RunMore.

(** * Further properties of programs *)

Section ProgramsMore.
Context {Value : Type} `{B : Backend Value}.
Implicit Types (h : gmap loc (@Node Value)) (x y node root : loc).
Implicit Types (w : world (Value := Value)).
Implicit Types (c : call (Value := Value)) (cs : list (call (Value := Value))).



(** ** Graphs built through the constructors *)

Global Instance call_scoped_dec w c : Decision (call_scoped w c).
Proof.
  destruct c as [|g|cls [ins|]| |v|v|self v|self v|fuel operation feed_dict];
    simpl; apply _.
Defined.

Global Instance scoped_dec cs w : Decision (scoped cs w).
Proof. revert w. induction cs as [|c cs IH]; intros w; simpl; apply _. Defined.

Lemma inputs_of_lookup h x :
  inputs_of h x = from_option node_inputs [] (h !! x).
Proof. unfold inputs_of. by destruct (h !! x) as [[? [?|] ?|? ?|? ?|? ?]|]. Qed.

Lemma tc_edge_first h x y : tc (edge h) x y → ∃ z, edge h x z.
Proof. intros [? ? ?|? ? ? ? ?]; eauto. Qed.

Lemma sound_store_empty : sound_store (∅ : gmap loc (@Node Value)).
Proof.
  assert (∀ x y, ¬ edge (∅ : gmap loc (@Node Value)) x y) as Hno.
  { intros x y. unfold edge. rewrite inputs_of_lookup, lookup_empty.
    apply not_elem_of_nil. }
  repeat split.
  - intros x [n Hn]. by rewrite lookup_empty in Hn.
  - intros x y Hxy. by apply Hno in Hxy.
  - intros x [z Hz]%tc_edge_first. by apply Hno in Hz.
Qed.

(** Two stores with the same nodes and the same input lists. *)
Lemma sound_store_same_inputs h h' :
  (∀ x, is_Some (h' !! x) ↔ is_Some (h !! x)) →
  (∀ x, inputs_of h' x = inputs_of h x) →
  (∀ x, proper_node h x → proper_node h' x) →
  sound_store h → sound_store h'.
Proof.
  intros Hdom Hin Hproper (Hp & Hclosed & Hac).
  assert (∀ x y, edge h' x y → edge h x y) as Hedge.
  { intros x y. unfold edge. by rewrite Hin. }
  repeat split.
  - intros x Hx. by apply Hproper, Hp, Hdom.
  - intros x y Hxy. by apply Hdom, (Hclosed x), Hedge.
  - intros x Hcyc. apply (Hac x).
    assert (∀ a b, tc (edge h') a b → tc (edge h) a b) as Htc.
    { induction 1 as [a b Hab | a c b Hac' _ IH].
      - by apply tc_once, Hedge.
      - eapply tc_l; [by apply Hedge | done]. }
    by apply Htc.
Qed.

(** A new node whose inputs are nodes of the store. *)
Lemma sound_store_insert h self n :
  sound_store h → h !! self = None →
  (∀ cls o, n ≠ Operation cls None o) →
  Forall (λ y, is_Some (h !! y)) (node_inputs n) →
  sound_store (<[self := n]> h).
Proof.
  intros (Hp & Hclosed & Hac) Hself Hn Hins.
  assert (∀ x, inputs_of (<[self := n]> h) x =
               if decide (self = x) then node_inputs n else inputs_of h x)
    as Hinputs.
  { intros x. rewrite !inputs_of_lookup, lookup_insert.
    by destruct (decide (self = x)). }
  assert (∀ x y, edge (<[self := n]> h) x y →
                 is_Some (h !! y) ∧ (x ≠ self → edge h x y)) as Hedge.
  { intros x y. unfold edge. rewrite Hinputs.
    destruct (decide (self = x)) as [<-|Hne]; intros Hy.
    - split; [|done]. by apply (proj1 (Forall_forall _ _) Hins).
    - split; [by apply (Hclosed x) | done]. }
  repeat split.
  - intros x. unfold proper_node. rewrite lookup_insert.
    destruct (decide (self = x)) as [<-|Hne].
    + intros _. destruct n as [cls [ins|] o|v o|v o|v o]; try done.
      by destruct (Hn cls o).
    + apply Hp.
  - intros x y [Hy _]%Hedge. rewrite lookup_insert.
    destruct (decide (self = y)); [eauto | done].
  - intros x Hcyc.
    assert (∀ a b, tc (edge (<[self := n]> h)) a b →
                   b ≠ self ∧ (a ≠ self → tc (edge h) a b)) as Htc.
    { clear x Hcyc. induction 1 as [a b Hab | a c b Hac' _ IH].
      - apply Hedge in Hab as [Hb Hab]. split.
        + intros ->. rewrite Hself in Hb. by destruct Hb.
        + intros Ha. by apply tc_once, Hab.
      - destruct IH as [Hb IH]. split; [done|]. intros Ha.
        apply Hedge in Hac' as [Hc Hac'].
        eapply tc_l; [by apply Hac'|]. apply IH.
        intros ->. rewrite Hself in Hc. by destruct Hc. }
    destruct (Htc x x Hcyc) as [Hx Hold]. by apply (Hac x), Hold.
Qed.

Lemma sound_store_construct n append w k :
  sound_store (heap w) →
  (∀ cls o, n ≠ Operation cls None o) →
  Forall (λ y, is_Some (heap w !! y)) (node_inputs n) →
  sound_store
    (heap (constructed k (default_graph w) (construct n append w)).1).
Proof.
  intros Hw Hn Hins. unfold construct, constructed.
  destruct (default_graph w) as [g|]; simpl; [|done].
  destruct (graphs w !! g); simpl; [|done].
  apply sound_store_insert; try done.
  apply not_elem_of_dom, is_fresh.
Qed.

Lemma sound_store_exec_call c w :
  call_scoped w c → sound_store (heap w) →
  sound_store (heap (exec_call c w).1).
Proof.
  intros Hc Hw.
  destruct c as [|g|cls [ins|]| |v|v|self v|self v|fuel operation feed_dict];
    simpl in *; try done; try by apply sound_store_construct.
  - unfold Variable_set_value.
    destruct (heap w !! self) as [[cls ins o|u o|u o|u o]|] eqn:Hself;
      try done.
    simpl. revert Hw. apply sound_store_same_inputs.
    + intros x. rewrite lookup_insert.
      destruct (decide (self = x)) as [<-|]; [|done].
      rewrite Hself. split; eauto.
    + intros x. rewrite !inputs_of_lookup, lookup_insert.
      destruct (decide (self = x)) as [<-|]; [|done]. by rewrite Hself.
    + intros x. unfold proper_node. rewrite lookup_insert.
      by destruct (decide (self = x)) as [<-|].
  - destruct (Session_run_frame fuel operation feed_dict w) as (Hs & _).
    revert Hw. apply sound_store_same_inputs.
    + intros x. rewrite <- !elem_of_dom.
      by rewrite (same_structure_dom _ _ Hs).
    + intros x. symmetry. by apply same_structure_inputs_of.
    + intros x. by apply same_structure_proper_node.
Qed.

Lemma sound_store_exec_calls cs w :
  scoped cs w → sound_store (heap w) → sound_store (heap (exec_calls cs w).1).
Proof.
  revert w. induction cs as [|c cs IH]; intros w Hcs Hw; simpl in *; [done|].
  destruct Hcs as [Hc Hcs].
  pose proof (sound_store_exec_call c w Hc Hw) as Hw1.
  destruct (exec_call c w) as [w1 log1]. simpl in *.
  specialize (IH w1 Hcs Hw1). by destruct (exec_calls cs w1).
Qed.

Lemma sound_store_well_formed h root :
  sound_store h → is_Some (h !! root) →
  well_formed_from h root ∧ acyclic_from h root.
Proof.
  intros (Hp & Hclosed & Hac) Hroot. split.
  - intros x Hx. apply Hp.
    induction Hx as [x | x y z Hxy _ IH]; [done|].
    apply IH. by apply (Hclosed x).
  - intros x _. apply Hac.
Qed.

Lemma get_output_terminates h l : get_output h l ≠ OutOfFuel.
Proof.
  unfold get_output.
  by destruct (h !! l) as [[cls ins o|v [o|]|v [o|]|v [o|]]|].
Qed.

(** X12.  A program that hands every operation it constructs a list of
    nodes that exist cannot build a cycle: after any such sequence of calls
    from the fresh interpreter the store has no cycle, and for every node
    of the store taken as target [topology_sort] returns one ordering for
    every fuel above some bound, so a run on it comes back (with a value or
    an exception) and never recurses without end. *)
Theorem scoped_programs_terminate cs :
  scoped cs initial_world →
  let w := (exec_calls cs initial_world).1 in
  (∀ x, ¬ tc (edge (heap w)) x x) ∧
  ∀ target feed_dict, is_Some (heap w !! target) →
    ∃ n ordering, ∀ fuel, n ≤ fuel →
      topology_sort fuel (heap w) target = Done ordering ∧
      (Session_run fuel target feed_dict w).1 ≠ OutOfFuel.
Proof.
  intros Hcs.
  pose proof (sound_store_exec_calls cs initial_world Hcs sound_store_empty)
    as Hsound.
  simpl. split; [apply Hsound|]. intros target feed_dict Htarget.
  destruct (sound_store_well_formed _ _ Hsound Htarget) as [Hwf Hac].
  destruct (topology_sort_terminates _ target Hwf Hac) as [n Hn].
  destruct (Hn n (le_n n)) as [ordering Hsort].
  exists n, ordering. intros fuel Hfuel.
  pose proof (topology_sort_fuel_mono n fuel _ _ _ Hfuel Hsort) as Hsort'.
  split; [by apply Hsort'|].
  rewrite (Session_run_result _ _ _ _ _ (Hsort' ltac:(done))).
  pose proof (topology_sort_post _ _ _ _ Hsort)
    as (Hord & _ & _ & Hmembers & _).
  assert (∀ l, l ∈ [] → has_output (heap (exec_calls cs initial_world).1) l)
    as Hnil by by intros l ?%elem_of_nil.
  pose proof (run_loop_cases feed_dict ordering [] _ Hnil Hord
                (λ x Hx, Hwf x (Hmembers x Hx))) as Hloop.
  destruct (run_loop feed_dict ordering _) as [[[]|e|] h'];
    simpl in *; try done.
  apply get_output_terminates.
Qed.

End ProgramsMore.

(** * The further properties on the example worlds *)

Lemma topology_sort_sound_witness :
  inputs_first (heap diamond_world) [0; 1; 2; 3] ∧
  last [0; 1; 2; 3] = Some 3 ∧
  NoDup [0; 1; 2; 3] ∧
  (∀ y, y ∈ [0; 1; 2; 3] ↔ reachable (heap diamond_world) 3 y) ∧
  acyclic_from (heap diamond_world) 3 ∧
  well_formed_from (heap diamond_world) 3.
Proof.
  apply (topology_sort_sound 3 (heap diamond_world) 3). by vm_compute.
Defined.

Lemma default_inputs_before : inputs_before (heap default_inputs_world).
Proof. apply (bool_decide_unpack _). by vm_compute. Qed.

Lemma Session_run_default_inputs_witness :
  ∃ n, ∀ fuel, n ≤ fuel →
    topology_sort fuel (heap default_inputs_world) 2 = Raise TypeError ∧
    Session_run (B := no_numeric) fuel 2 ∅ default_inputs_world =
      (Raise TypeError, default_inputs_world).
Proof.
  apply (Session_run_default_inputs (B := no_numeric) default_inputs_world
           2 ∅ 1 Operation_base PyNone).
  - apply inputs_before_closed; [apply default_inputs_before|].
    eexists. by vm_compute.
  - apply inputs_before_acyclic, default_inputs_before.
  - apply rtc_once. unfold edge. vm_compute. right. by left.
  - by vm_compute.
Defined.



Lemma Session_run_consistent_witness :
  get_output
    (heap (Session_run (B := python_int_no_divide) 2 2 ∅ multiply_world).2)
    2 = Done (PyVal 12%Z) ∧
  ∀ x, reachable (heap multiply_world) 2 x →
    output_consistent (B := python_int_no_divide) ∅
      (heap (Session_run (B := python_int_no_divide) 2 2 ∅ multiply_world).2)
      x.
Proof.
  apply (Session_run_consistent (B := python_int_no_divide) 2 2 ∅
           multiply_world).
  by vm_compute.
Defined.

Lemma diamond_inputs_before : inputs_before (heap diamond_world).
Proof. apply inputs_older_before, diamond_inputs_older. Qed.

Lemma Session_run_unreachable_witness :
  heap (Session_run (B := no_numeric) 3 1 ∅ diamond_world).2 !! 3 =
  heap diamond_world !! 3.
Proof.
  apply (Session_run_unreachable (B := no_numeric) 3 1 ∅ diamond_world 3).
  intros Hreach.
  apply (inputs_before_reachable _ _ _ diamond_inputs_before) in Hreach.
  lia.
Defined.

Lemma missing_feed_inputs_before : inputs_before (heap missing_feed_world).
Proof. apply inputs_older_before, missing_feed_inputs_older. Qed.

Lemma Session_run_feed_witness :
  Session_run (B := no_numeric) 2 2 {[0 := PyNone]} missing_feed_world =
  Session_run (B := no_numeric) 2 2 {[0 := PyNone; 1 := PyNone]}
    missing_feed_world.
Proof.
  apply (Session_run_feed (B := no_numeric)).
  intros x v o Hreach Hx.
  apply (inputs_before_reachable _ _ _ missing_feed_inputs_before) in Hreach.
  destruct x as [|[|[|x]]]; [done| | |lia]; by vm_compute in Hx.
Defined.

Lemma run_placeholder_witness :
  (Session_run (B := no_numeric) 1 0 {[0 := PyNone]} missing_feed_world).1 =
  match ({[0 := PyNone]} : gmap loc (pyobj Empty_set)) !! 0 with
  | Some u => Done u
  | None => Raise KeyError
  end.
Proof.
  apply (run_placeholder (B := no_numeric) 0 missing_feed_world 0 PyNone None).
  by vm_compute.
Defined.

Lemma binary_operation_run_witness :
  (Session_run (B := python_int_no_divide) (2 + 0) 2 ∅ multiply_world).1 =
  forward (B := python_int_no_divide) multiply [PyVal 3%Z; PyVal 4%Z].
Proof.
  apply (binary_operation_run (B := python_int_no_divide) 0 multiply_world 2
           multiply 0 1 PyNone).
  - by vm_compute.
  - left. exists None. by vm_compute.
  - right. exists None. by vm_compute.
Defined.

Lemma Variable_assignment_witness :
  let w' := (Variable_set_value 1 (PyVal 10%Z) multiply_world).2 in
  (Variable_set_value 1 (PyVal 10%Z) multiply_world).1 = Done () ∧
  Variable_value w' 1 = Done (PyVal 10%Z) ∧
  (Session_run (B := python_int_no_divide) 1 1 ∅ w').1 = Done (PyVal 10%Z) ∧
  (∀ l, l ≠ 1 → heap w' !! l = heap multiply_world !! l) ∧
  graphs w' = graphs multiply_world ∧
  default_graph w' = default_graph multiply_world.
Proof.
  apply (Variable_assignment (B := python_int_no_divide) 0 multiply_world 1
           (PyVal 4%Z) None).
  by vm_compute.
Defined.

Lemma forward_returns_witness :
  (add = Operation_base ∧ [PyVal 3%Z; PyVal 4%Z] = [] ∧
   PyVal 7%Z = PyNone) ∨
  (add ≠ Operation_base ∧
   ∃ a b c, [PyVal 3%Z; PyVal 4%Z] = [PyVal a; b] ∧ PyVal 7%Z = PyVal c ∧
            (add ≠ matmul → ∃ b', b = PyVal b')).
Proof.
  apply (forward_returns (B := python_int_no_divide)). done.
Defined.


Lemma scoped_programs_terminate_witness :
  let cs := [CallGraph; CallAsDefault 0; CallConstant (PyVal 3%Z);
             CallVariable (PyVal 4%Z); CallOperation multiply (Some [0; 1])] in
  let w := (exec_calls (B := python_int_no_divide) cs initial_world).1 in
  (∀ x, ¬ tc (edge (heap w)) x x) ∧
  ∀ target feed_dict, is_Some (heap w !! target) →
    ∃ n ordering, ∀ fuel, n ≤ fuel →
      topology_sort fuel (heap w) target = Done ordering ∧
      (Session_run (B := python_int_no_divide) fuel target feed_dict w).1 ≠
        OutOfFuel.
Proof.
  apply (scoped_programs_terminate (B := python_int_no_divide)).
  apply (bool_decide_unpack _). by vm_compute.
Defined.
